(** * DocPilot-AI: keyword-overlap retrieval over chunked PDF text

    A shallow embedding of [app.py] and of the Python built-ins it calls,
    followed by the properties of chunking, normalisation, retrieval and of
    the three operations of the interactive surface. *)

From Stdlib Require Import ZArith List QArith String Ascii.
From stdpp Require Import base decidable numbers list sets gmap sorting.

Local Open Scope Z_scope.

(** ** Python built-ins used by [app.py] *)

Module Py.

(** A Python [str] is a sequence of Unicode code points. *)
Abbreviation str := (list N).

Inductive exn : Type :=
  | ValueError          (* range() arg 3 must not be zero *)
  | PdfReadError        (* raised by PdfReader on an unreadable file *)
  | RequestException    (* raised by requests.post *)
  | BadResponseBody.    (* response.json()[...] failed *)

Inductive result (A : Type) : Type :=
  | Ok (a : A)
  | Raise (e : exn).
Arguments Ok {A} a.
Arguments Raise {A} e.

(** [len(s)] *)
Definition len {A} (s : list A) : Z := Z.of_nat (length s).

(** The code points for which [str.isspace] holds.  [str.strip],
    [str.split] and the class [\s] of [re] all test a code point with this
    one predicate (CPython's Py_UNICODE_ISSPACE). *)
Definition isspace (c : N) : bool :=
  ((0x09 <=? c) && (c <=? 0x0D) || (0x1C <=? c) && (c <=? 0x20)
   || (c =? 0x85) || (c =? 0xA0) || (c =? 0x1680)
   || (0x2000 <=? c) && (c <=? 0x200A)
   || (c =? 0x2028) || (c =? 0x2029) || (c =? 0x202F)
   || (c =? 0x205F) || (c =? 0x3000))%N.

Fixpoint drop_while {A} (p : A -> bool) (l : list A) : list A :=
  match l with
  | [] => []
  | x :: l' => if p x then drop_while p l' else l
  end.

(** [s.lstrip()], [s.rstrip()], [s.strip()] *)
Definition lstrip (s : str) : str := drop_while isspace s.
Definition rstrip (s : str) : str := rev (drop_while isspace (rev s)).
Definition strip (s : str) : str := rstrip (lstrip s).

(** Slice bounds: a negative bound counts from the end, and every bound
    is clamped to [0, len]. *)
Definition slice_bound (n i : Z) : Z :=
  if i <? 0 then Z.max 0 (n + i) else Z.min i n.

(** [s[lo:hi]] *)
Definition slice {A} (s : list A) (lo hi : Z) : list A :=
  let n := len s in
  let l := slice_bound n lo in
  let h := slice_bound n hi in
  take (Z.to_nat (h - l)) (drop (Z.to_nat l) s).

(** [s[:hi]] *)
Definition slice_to {A} (s : list A) (hi : Z) : list A := slice s 0 hi.

(** The number of items of [range(start, stop, step)], [step] non-zero. *)
Definition range_length (start stop step : Z) : Z :=
  if 0 <? step
  then (if start <? stop then (stop - start - 1) / step + 1 else 0)
  else (if stop <? start then (start - stop - 1) / (- step) + 1 else 0).

(** [range(start, stop, step)]: item [j] is [start + j * step]. *)
Definition range (start stop step : Z) : result (list Z) :=
  if step =? 0 then Raise ValueError
  else Ok (map (fun j => start + Z.of_nat j * step)
               (seq 0 (Z.to_nat (range_length start stop step)))).

(** Text of the source written in ASCII, as code points. *)
Definition lit (s : string) : str :=
  map N_of_ascii (list_ascii_of_string s).
Arguments lit s%_string.

(** [str(n)] for a length [n]. *)
Fixpoint digits (d : Decimal.uint) : str :=
  match d with
  | Decimal.Nil => []
  | Decimal.D0 d' => 48%N :: digits d'
  | Decimal.D1 d' => 49%N :: digits d'
  | Decimal.D2 d' => 50%N :: digits d'
  | Decimal.D3 d' => 51%N :: digits d'
  | Decimal.D4 d' => 52%N :: digits d'
  | Decimal.D5 d' => 53%N :: digits d'
  | Decimal.D6 d' => 54%N :: digits d'
  | Decimal.D7 d' => 55%N :: digits d'
  | Decimal.D8 d' => 56%N :: digits d'
  | Decimal.D9 d' => 57%N :: digits d'
  end.
Definition str_of_nat (n : nat) : str := digits (Nat.to_uint n).

(** [sep.join(l)] *)
Fixpoint join (sep : str) (l : list str) : str :=
  match l with
  | [] => []
  | [x] => x
  | x :: l' => x ++ sep ++ join sep l'
  end.

(** *** [str.lower]

    The lowercase mappings of the code points above ASCII and the
    properties Cased and Case_Ignorable come from the Unicode character
    database; they are left as the data of a class. *)
Class UnicodeData : Type := {
  unicode_lower : N -> list N;
  is_cased : N -> bool;
  is_case_ignorable : N -> bool
}.

Definition ascii_lower (c : N) : N :=
  if ((0x41 <=? c) && (c <=? 0x5A))%N then (c + 32)%N else c.

Section Lower.
Context `{UnicodeData}.

Definition to_lower_full (c : N) : list N :=
  if (c <? 128)%N then [ascii_lower c] else unicode_lower c.

(** U+03A3 lowers to the final sigma U+03C2 when it follows a cased letter
    and no cased letter follows it, case-ignorable code points skipped on
    both sides; otherwise to U+03C3.  [before] is the text to the left,
    nearest code point first. *)
Definition handle_capital_sigma (before after : str) : N :=
  let final_sigma :=
    match drop_while is_case_ignorable before with
    | c :: _ => is_cased c
    | [] => false
    end in
  let final_sigma :=
    final_sigma &&
    match drop_while is_case_ignorable after with
    | c :: _ => negb (is_cased c)
    | [] => true
    end in
  if final_sigma then 0x3C2%N else 0x3C3%N.

Definition lower_ucs4 (before : str) (c : N) (after : str) : list N :=
  if (c =? 0x3A3)%N then [handle_capital_sigma before after]
  else to_lower_full c.

Fixpoint do_lower (before s : str) : str :=
  match s with
  | [] => []
  | c :: after => lower_ucs4 before c after ++ do_lower (c :: before) after
  end.

(** [s.lower()] *)
Definition lower (s : str) : str := do_lower [] s.

End Lower.

(** *** [re.sub(r"[^a-z0-9\s]", " ", text)] *)
Definition in_class_a_z_0_9_s (c : N) : bool :=
  ((0x61 <=? c) && (c <=? 0x7A) || (0x30 <=? c) && (c <=? 0x39))%N
  || isspace c.

Definition replace_outside_class (c : N) : N :=
  if in_class_a_z_0_9_s c then c else 0x20%N.

Definition re_sub_complement_with_space (text : str) : str :=
  map replace_outside_class text.

(** *** [s.split()]: the maximal runs of non-whitespace, in order.
    [cur] is the run being read, last code point first. *)
Definition flush (cur : str) : list str :=
  match cur with [] => [] | _ => [rev cur] end.

Fixpoint split_from (cur s : str) : list str :=
  match s with
  | [] => flush cur
  | c :: s' =>
      if isspace c then flush cur ++ split_from [] s'
      else split_from (c :: cur) s'
  end.

Definition split (s : str) : list str := split_from [] s.

(** *** [l.sort(key=key, reverse=reverse)]

    The sort is stable.  With [reverse=True] CPython reverses the list,
    sorts it forward and reverses the outcome, which keeps items of equal
    key in their original order.  The forward sort is rendered as a stable
    insertion sort. *)
Fixpoint insert_by {A} (key : A -> nat) (x : A) (l : list A) : list A :=
  match l with
  | [] => [x]
  | y :: l' => if (key y <? key x)%nat then y :: insert_by key x l'
               else x :: l
  end.

Definition sort_forward {A} (key : A -> nat) (l : list A) : list A :=
  foldr (insert_by key) [] l.

Definition list_sort {A} (key : A -> nat) (reverse : bool) (l : list A)
    : list A :=
  if reverse then rev (sort_forward key (rev l)) else sort_forward key l.

End Py.

Import Py.

(** ** [app.py] *)

(** [chunk_text(text, chunk_size=400)]: the loop appends to [chunks]. *)
Definition chunk_text_step (text : str) (chunk_size : Z)
    (chunks : list str) (i : Z) : list str :=
  let chunk := strip (slice text i (i + chunk_size)) in
  if 50 <? len chunk then chunks ++ [chunk] else chunks.

Definition chunk_text (text : str) (chunk_size : Z) : result (list str) :=
  match range 0 (len text) chunk_size with
  | Raise e => Raise e
  | Ok idx => Ok (foldl (chunk_text_step text chunk_size) [] idx)
  end.

Definition default_chunk_size : Z := 400.

Section Retrieval.
Context `{UnicodeData}.

(** [clean_words(text)] *)
Definition clean_words (text : str) : gset str :=
  let text := lower text in
  let text := re_sub_complement_with_space text in
  list_to_set (split text).

(** [len(query_words & chunk_words)] *)
Definition overlap_score (query_words : gset str) (chunk : str) : nat :=
  size (query_words ∩ clean_words chunk).

(** A chunk is kept when it shares a word with the query. *)
Definition relevant (query_words : gset str) (chunk : str) : Prop :=
  (0 < overlap_score query_words chunk)%nat.

#[global] Instance relevant_dec (query_words : gset str) (chunk : str) :
  Decision (relevant query_words chunk).
Proof. unfold relevant. apply _. Defined.

Definition score_step (query_words : gset str)
    (scored_chunks : list (nat * str)) (chunk : str) : list (nat * str) :=
  let overlap_score := overlap_score query_words chunk in
  if (0 <? overlap_score)%nat then scored_chunks ++ [(overlap_score, chunk)]
  else scored_chunks.

(** [retrieve_relevant_chunks(query, top_k=3)], the global corpus passed
    as [DOCUMENT_CHUNKS]. *)
Definition retrieve_relevant_chunks (DOCUMENT_CHUNKS : list str)
    (query : str) (top_k : Z) : list str :=
  let query_words := clean_words query in
  if (size query_words =? 0)%nat then []
  else
    let scored_chunks := foldl (score_step query_words) [] DOCUMENT_CHUNKS in
    let scored_chunks := list_sort fst true scored_chunks in
    map snd (slice_to scored_chunks top_k).

End Retrieval.

Definition default_top_k : Z := 3.

(** *** Module constants *)

Definition GROQ_URL : str :=
  lit "https://api.groq.com/openai/v1/chat/completions".
Definition MODEL : str := lit "llama-3.3-70b-versatile".

Definition SYSTEM_PROMPT : str := lit "
You are DocPilotAI, an intelligent assistant that answers questions strictly based on the uploaded PDF documents.
Rules:
- Use ONLY the provided document context to answer.
- If the answer is not found in the document, clearly say that it is not available in the provided PDFs.
- Explain answers in a clear, student-friendly way.
Explanation Style:
- If the topic is theoretical, conceptual, language-related, or a computer science concept, explain it with simple and clear examples.
- If the topic is programming or code-related, explain it using relevant code examples taken from or consistent with the document context.
- Break complex ideas into steps or bullet points when helpful.
- Keep explanations clear, structured, and easy to understand for a student.
Do not add outside knowledge. Do not guess. Stay within the document content.
".

(** The user-visible messages; the leading symbols are U+274C, U+26A0
    U+FE0F, U+2705, U+1F4C4 and U+1F9F9. *)
Definition msg_key_not_found : str :=
  0x274C%N :: lit " GROQ API key not found.".
Definition msg_no_relevant : str :=
  lit "No relevant information found in the uploaded PDFs.".
Definition msg_groq_error : str :=
  0x274C%N :: lit " Error communicating with Groq API.".
Definition msg_no_files : str :=
  0x274C%N :: lit " No files uploaded.".
Definition msg_process_first : str :=
  0x26A0%N :: 0xFE0F%N :: lit " Please upload and process PDFs first.".
Definition msg_cleared : str :=
  0x1F9F9%N :: lit " Cleared. Upload PDFs to start again.".
Definition msg_processed (n_files n_chunks : nat) : str :=
  (0x2705%N :: lit " ") ++ str_of_nat n_files ++ lit " PDF(s) processed"
  ++ [0x0A%N]
  ++ (0x1F4C4%N :: lit " ") ++ str_of_nat n_chunks
  ++ lit " text chunks created".

(** *** The collaborators: uploaded files and the completion service *)

(** An uploaded file, with what [PdfReader(f.name)] makes of it: the
    [extract_text()] of each page ([None] as the empty text), or an
    exception. *)
Record upload : Type := {
  name : str;
  reader_pages : result (list str)
}.

(** A value decoded from JSON, as [response.json()] gives it; a number
    is kept as it is written in the body. *)
#[warnings="-register-all"]
Inductive json_value : Type :=
  | JNull
  | JBool (b : bool)
  | JNumber (literal : str)
  | JString (s : str)
  | JArray (items : list json_value)
  | JObject (members : list (str * json_value)).

(** A message of a transcript or of a request; [content] is a string
    wherever [app.py] writes it, and whatever the service sent where it is
    the reply. *)
Record chat_message : Type := { role : str; content : json_value }.

Record payload : Type := {
  model : str;
  messages : list chat_message;
  temperature : Q;
  max_tokens : Z
}.

Record request : Type := {
  url : str;
  json : payload;
  headers : list (str * str)
}.

(** A response: its status code and the value of
    [response.json()["choices"][0]["message"]["content"]], of whatever
    JSON type it is; [None] when the body is not JSON or has no such
    path, in which case the expression raises. *)
Record response : Type := {
  status_code : Z;
  choice_content : option json_value
}.

Inductive call : Type :=
  | CallRetrieve (query : str)
  | CallPost (req : request).

(** The process: the two module globals, the completion service as it
    answers a request, and the calls made so far to
    [retrieve_relevant_chunks] and to [requests.post], oldest first. *)
Record process : Type := {
  GROQ_API_KEY : option str;
  DOCUMENT_CHUNKS : list str;
  requests_post : request -> result response;
  calls : list call
}.

Definition set_DOCUMENT_CHUNKS (chunks : list str) (p : process) : process :=
  {| GROQ_API_KEY := GROQ_API_KEY p;
     DOCUMENT_CHUNKS := chunks;
     requests_post := requests_post p;
     calls := calls p |}.

Definition record_call (c : call) (p : process) : process :=
  {| GROQ_API_KEY := GROQ_API_KEY p;
     DOCUMENT_CHUNKS := DOCUMENT_CHUNKS p;
     requests_post := requests_post p;
     calls := calls p ++ [c] |}.

(** The initial process: [DOCUMENT_CHUNKS = []], nothing called yet. *)
Definition start (key : option str) (post : request -> result response)
    : process :=
  {| GROQ_API_KEY := key; DOCUMENT_CHUNKS := [];
     requests_post := post; calls := [] |}.

(** Truth value of an optional string, of a list, of an optional list. *)
Definition truthy_str (s : option str) : bool :=
  match s with Some (_ :: _) => true | _ => false end.
Definition truthy_list {A} (l : list A) : bool :=
  match l with _ :: _ => true | [] => false end.
Definition truthy_opt_list {A} (l : option (list A)) : bool :=
  match l with Some (_ :: _) => true | _ => false end.

(** [extract_text_from_pdfs(files)] *)
Definition add_page (text page_text : str) : str :=
  if truthy_list page_text then text ++ page_text ++ [0x0A%N] else text.

Fixpoint extract_text_from (text : str) (files : list upload)
    : result str :=
  match files with
  | [] => Ok text
  | f :: files' =>
      match reader_pages f with
      | Raise e => Raise e
      | Ok pages => extract_text_from (foldl add_page text pages) files'
      end
  end.

Definition extract_text_from_pdfs (files : list upload) : result str :=
  extract_text_from [] files.

Section Operations.
Context `{UnicodeData}.

(** [ask_groq(question)] *)
Definition ask_groq (question : str) (p : process)
    : result json_value * process :=
  if negb (truthy_str (GROQ_API_KEY p))
  then (Ok (JString msg_key_not_found), p)
  else
    let relevant_chunks :=
      retrieve_relevant_chunks (DOCUMENT_CHUNKS p) question default_top_k in
    let p := record_call (CallRetrieve question) p in
    if negb (truthy_list relevant_chunks)
    then (Ok (JString msg_no_relevant), p)
    else
      let context := join (lit "

") relevant_chunks in
      let payload :=
        {| model := MODEL;
           messages :=
             [ {| role := lit "system"; content := JString SYSTEM_PROMPT |};
               {| role := lit "system";
                  content := JString (lit "Document Context:
" ++ context) |};
               {| role := lit "user"; content := JString question |} ];
           temperature := 3 # 10;
           max_tokens := 800 |} in
      let headers :=
        [ (lit "Authorization",
           lit "Bearer " ++ default [] (GROQ_API_KEY p));
          (lit "Content-Type", lit "application/json") ] in
      let req := {| url := GROQ_URL; json := payload; headers := headers |} in
      let p := record_call (CallPost req) p in
      match requests_post p req with
      | Raise e => (Raise e, p)
      | Ok response =>
          if status_code response =? 200 then
            match choice_content response with
            | Some answer => (Ok answer, p)
            | None => (Raise BadResponseBody, p)
            end
          else (Ok (JString msg_groq_error), p)
      end.

(** [process_pdfs(files)]; [files] is [None] when nothing was uploaded. *)
Definition process_pdfs (files : option (list upload)) (p : process)
    : result str * process :=
  if negb (truthy_opt_list files) then (Ok msg_no_files, p)
  else
    let files := default [] files in
    match extract_text_from_pdfs files with
    | Raise e => (Raise e, p)
    | Ok text =>
        match chunk_text text default_chunk_size with
        | Raise e => (Raise e, p)
        | Ok chunks =>
            let p := set_DOCUMENT_CHUNKS chunks p in
            (Ok (msg_processed (length files) (length (DOCUMENT_CHUNKS p))),
             p)
        end
    end.

(** [chat_fn(message, history)] returns the transcript and the new
    content of the question box. *)
Definition chat_fn (message : str) (history : option (list chat_message))
    (p : process) : result (list chat_message * str) * process :=
  let history := if truthy_opt_list history then default [] history else [] in
  let history :=
    history ++ [ {| role := lit "user"; content := JString message |} ] in
  let '(reply, p) :=
    if negb (truthy_list (DOCUMENT_CHUNKS p))
    then (Ok (JString msg_process_first), p)
    else ask_groq message p in
  match reply with
  | Raise e => (Raise e, p)
  | Ok reply =>
      let history :=
        history ++ [ {| role := lit "assistant"; content := reply |} ] in
      (Ok (history, []), p)
  end.

(** [clear_all()] *)
Definition clear_all (p : process)
    : (list chat_message * str) * process :=
  let p := set_DOCUMENT_CHUNKS [] p in
  (([], msg_cleared), p).

(** The reply of a successful [chat_fn]: the content of the message that
    closes the transcript. *)
Definition last_reply (r : result (list chat_message * str))
    : option json_value :=
  match r with
  | Ok (history, _) => content <$> last history
  | Raise _ => None
  end.

(** The operations of the interactive surface and the runs made of them. *)
Inductive operation : Type :=
  | ProcessPdfs (files : option (list upload))
  | ChatFn (message : str) (history : option (list chat_message))
  | ClearAll.

Definition step (p : process) (op : operation) : process :=
  match op with
  | ProcessPdfs files => snd (process_pdfs files p)
  | ChatFn message history => snd (chat_fn message history p)
  | ClearAll => snd (clear_all p)
  end.

Definition run (p : process) (ops : list operation) : process :=
  foldl step p ops.

End Operations.

(** ** The specification's side of chunking *)

(** The text walked in consecutive windows of [n] characters, the last
    one possibly shorter; [fuel] bounds the number of windows. *)
Fixpoint windows_fuel (fuel n : nat) (text : str) : list str :=
  match fuel with
  | O => []
  | S fuel' =>
      match text with
      | [] => []
      | _ => take n text :: windows_fuel fuel' n (drop n text)
      end
  end.

Definition windows (n : nat) (text : str) : list str :=
  windows_fuel (length text) n text.

Definition long_enough (chunk : str) : Prop := 50 < len chunk.

Definition all_space (s : str) : Prop := Forall (fun c => isspace c = true) s.

(** A stored chunk is valid when stripping leaves it as it is and it has
    more than 50 characters. *)
Definition valid_chunk (chunk : str) : Prop :=
  strip chunk = chunk /\ 50 < len chunk.

(** Chunks woven with the whitespace trimmed around each of them. *)
Fixpoint weave (gaps : list (str * str)) (chunks : list str) : str :=
  match gaps, chunks with
  | (l, t) :: gaps', c :: chunks' => l ++ c ++ t ++ weave gaps' chunks'
  | _, _ => []
  end.

(** The text is the chunks in order, each between trimmed whitespace,
    followed by short fragments that were discarded at the end. *)
Definition rebuilt_up_to_trailing (text : str) (chunks : list str) : Prop :=
  exists (gaps : list (str * str)) (frags : list str),
    length gaps = length chunks /\
    Forall (fun g => all_space (fst g) /\ all_space (snd g)) gaps /\
    Forall (fun f => len (strip f) <= 50) frags /\
    text = weave gaps chunks ++ concat frags.

(** A window cut in three: leading whitespace, stripped core, trailing
    whitespace. *)
Record piece : Type := { lead : str; core : str; trail : str }.

Definition piece_text (p : piece) : str := lead p ++ core p ++ trail p.

(** The window of index [j]: [text[j*chunk_size : j*chunk_size+chunk_size]]. *)
Definition window_at (text : str) (chunk_size : Z) (j : nat) : str :=
  slice text (Z.of_nat j * chunk_size)
        (Z.of_nat j * chunk_size + chunk_size).

(** The pieces are, in order, the windows of [chunk_size] characters of
    the text, one for each start below [len(text)], each cut around its
    stripped form; the chunks are the cores longer than 50 characters, in
    order, and the other cores are dropped wherever they are. *)
Definition rebuilt_up_to_short_windows (chunk_size : Z) (text : str)
    (chunks : list str) : Prop :=
  exists pieces : list piece,
    map piece_text pieces
    = map (window_at text chunk_size) (seq 0 (length pieces)) /\
    (forall j : nat,
        (j < length pieces)%nat <-> Z.of_nat j * chunk_size < len text) /\
    text = concat (map piece_text pieces) /\
    Forall (fun p => all_space (lead p) /\ all_space (trail p)
                     /\ core p = strip (piece_text p)) pieces /\
    chunks = filter long_enough (map core pieces).

(** ** Notions used by the statements *)

(** Orders on the items of a list, by key. *)
Definition ascending {A} (key : A -> nat) : relation A :=
  fun a b => (key a <= key b)%nat.
Definition descending {A} (key : A -> nat) : relation A :=
  fun a b => (key b <= key a)%nat.

Definition alnum (c : N) : bool :=
  ((0x61 <=? c) && (c <=? 0x7A) || (0x30 <=? c) && (c <=? 0x39))%N.

(** A word: a non-empty run of lowercase ASCII letters and digits. *)
Definition is_word (w : str) : Prop :=
  w <> [] /\ Forall (fun c => alnum c = true) w.

(** What one code point of the input becomes under [lower] followed by
    the substitution.  Either lowercase sigma is outside the class, so the
    context of a capital sigma plays no part. *)
Definition normalize_one `{UnicodeData} (c : N) : str :=
  map replace_outside_class
      (if (c =? 0x3A3)%N then [0x3C3%N] else to_lower_full c).

Definition normalize `{UnicodeData} (text : str) : str :=
  re_sub_complement_with_space (lower text).

(** The pages [PdfReader] gives for a file, none when it raises. *)
Definition pages_of (f : upload) : list str :=
  match reader_pages f with Ok pages => pages | Raise _ => [] end.

(** A page text as it enters the extracted text. *)
Definition page_line (page_text : str) : str := page_text ++ [0x0A%N].

Definition readable (f : upload) : Prop :=
  exists pages, reader_pages f = Ok pages.

(** An ASCII letter of either case, or an ASCII digit. *)
Definition ascii_alnum (c : N) : bool :=
  ((0x41 <=? c) && (c <=? 0x5A) || (0x61 <=? c) && (c <=? 0x7A)
   || (0x30 <=? c) && (c <=? 0x39))%N.

(** ASCII punctuation, controls and whitespace: what separates words. *)
Definition ascii_separator (c : N) : Prop :=
  (c < 128)%N /\ ascii_alnum c = false.

(** Two processes that differ at most in the log of calls. *)
Definition same_globals (p q : process) : Prop :=
  GROQ_API_KEY q = GROQ_API_KEY p /\
  DOCUMENT_CHUNKS q = DOCUMENT_CHUNKS p /\
  requests_post q = requests_post p.

Definition is_chat (op : operation) : Prop :=
  match op with ChatFn _ _ => True | _ => False end.

(** ** Sample data *)

(** Unicode data that knows ASCII only: no mapping above ASCII, the
    ASCII letters cased, the apostrophe case-ignorable. *)
Definition ascii_only : UnicodeData :=
  {| unicode_lower := fun c => [c];
     is_cased := fun c =>
       ((0x41 <=? c) && (c <=? 0x5A) || (0x61 <=? c) && (c <=? 0x7A))%N;
     is_case_ignorable := fun c => (c =? 0x27)%N |}.

(** Three windows of 400 characters: sixty [a] then spaces; one [x] then
    spaces; sixty [b]. *)
Definition dropped_middle_text : str :=
  replicate 60 0x61%N ++ replicate 340 0x20%N
  ++ [0x78%N] ++ replicate 399 0x20%N
  ++ replicate 60 0x62%N.

Definition dropped_middle_chunks : list str :=
  [replicate 60 0x61%N; replicate 60 0x62%N].

(** A fragment of the Unicode data: the Kelvin sign and the dotted
    capital I lower into ASCII, capital alpha lowers to alpha; the combining
    dot above is case-ignorable. *)
Definition unicode_fragment : UnicodeData :=
  {| unicode_lower := fun c =>
       if (c =? 0x212A)%N then [0x6B%N]
       else if (c =? 0x130)%N then [0x69%N; 0x307%N]
       else if (c =? 0x391)%N then [0x3B1%N]
       else [c];
     is_cased := fun c =>
       ((0x41 <=? c) && (c <=? 0x5A) || (0x61 <=? c) && (c <=? 0x7A)
        || (c =? 0x212A) || (c =? 0x130) || (c =? 0x391) || (c =? 0x3B1)
        || (c =? 0x3A3) || (c =? 0x3C2) || (c =? 0x3C3))%N;
     is_case_ignorable := fun c => ((c =? 0x27) || (c =? 0x307))%N |}.

(** [K9 İstanbul ΑΣ], the first letter being the Kelvin sign. *)
Definition kelvin_text : str :=
  [0x212A%N; 0x39%N; 0x20%N; 0x130%N] ++ lit "stanbul"
  ++ [0x20%N; 0x391%N; 0x3A3%N].

Definition pets_corpus : list str :=
  [ lit "the cat sat on the mat";
    lit "dogs bark loudly at night";
    lit "cats and dogs are pets" ].

(** A process with a key and a loaded corpus; the service answers 200. *)
Definition sample_process : process :=
  {| GROQ_API_KEY := Some (lit "gsk");
     DOCUMENT_CHUNKS := pets_corpus;
     requests_post := fun _ =>
       Ok {| status_code := 200; choice_content := Some (JString (lit "ok")) |};
     calls := [] |}.

Definition keyless_process : process :=
  {| GROQ_API_KEY := None;
     DOCUMENT_CHUNKS := pets_corpus;
     requests_post := fun _ => Raise RequestException;
     calls := [] |}.

(** Text without whitespace: 130 times the letter [a]. *)
Definition solid_text : str := replicate 130 0x61%N.

Definition two_page_file : upload :=
  {| name := lit "a.pdf";
     reader_pages := Ok [lit "first page"; []; lit "third page"] |}.

Definition one_page_file : upload :=
  {| name := lit "b.pdf"; reader_pages := Ok [lit "other file"] |}.

Definition broken_file : upload :=
  {| name := lit "c.pdf"; reader_pages := Raise PdfReadError |}.

Definition textless_file : upload :=
  {| name := lit "scan.pdf"; reader_pages := Ok [[]; []] |}.

(** A process with a key and a loaded corpus whose service cannot be
    reached, and one whose service answers 200 with a null content. *)
Definition offline_process : process :=
  {| GROQ_API_KEY := Some (lit "gsk");
     DOCUMENT_CHUNKS := pets_corpus;
     requests_post := fun _ => Raise RequestException;
     calls := [] |}.

Definition null_content_process : process :=
  {| GROQ_API_KEY := Some (lit "gsk");
     DOCUMENT_CHUNKS := pets_corpus;
     requests_post := fun _ =>
       Ok {| status_code := 200; choice_content := Some JNull |};
     calls := [] |}.

(** ** The built-ins on sample values (the values are CPython's) *)

Example strip_sample :
  strip (0x20%N :: 0x20%N :: lit "ab c" ++ [0x20%N; 0x20%N; 0x0A%N])
  = lit "ab c".
Proof. reflexivity. Qed.

Example slice_samples :
  slice (lit "abcdef") 2 (-1) = lit "cde" /\
  slice (lit "abcdef") (-2) 100 = lit "ef" /\
  slice (lit "abcdef") 4 2 = [] /\
  slice_to (lit "abcdef") (-10) = [].
Proof. repeat split. Qed.

Example range_samples :
  range 0 10 4 = Ok [0; 4; 8] /\ range 0 10 (-1) = Ok [] /\
  range 0 10 0 = Raise ValueError.
Proof. repeat split. Qed.

Example split_sample :
  split (0x20%N :: lit "a b" ++ [0x09%N] ++ lit "c" ++ [0x0A%N])
  = [lit "a"; lit "b"; lit "c"].
Proof. reflexivity. Qed.

Example list_sort_sample :
  list_sort fst true
    [(2, lit "a"); (1, lit "b"); (2, lit "c"); (1, lit "d"); (3, lit "e");
     (2, lit "f")]%nat
  = [(3, lit "e"); (2, lit "a"); (2, lit "c"); (2, lit "f"); (1, lit "b");
     (1, lit "d")]%nat.
Proof. reflexivity. Qed.

Example lower_sample :
  lower (H := unicode_fragment) kelvin_text
  = [0x6B%N; 0x39%N; 0x20%N; 0x69%N; 0x307%N] ++ lit "stanbul"
    ++ [0x20%N; 0x3B1%N; 0x3C2%N].
Proof. reflexivity. Qed.

Example clean_words_sample :
  clean_words (H := unicode_fragment) kelvin_text
  = {[ lit "k9"; lit "i"; lit "stanbul" ]}.
Proof. vm_compute. reflexivity. Qed.

(** ** Properties of the built-ins *)

Section DropWhile.
Context {A : Type} (p : A -> bool).

Lemma drop_while_split (l : list A) :
  exists pre, l = pre ++ drop_while p l /\ Forall (fun x => p x = true) pre.
Proof.
  induction l as [|x l [pre [E F]]]; simpl.
  - exists []. split; [reflexivity | constructor].
  - destruct (p x) eqn:Hx.
    + exists (x :: pre). split; [simpl; congruence | constructor; assumption].
    + exists []. split; [reflexivity | constructor].
Qed.

Lemma drop_while_head (l : list A) x l' :
  drop_while p l = x :: l' -> p x = false.
Proof.
  induction l as [|y l IH]; simpl; [discriminate|].
  destruct (p y) eqn:Hy; [assumption|].
  intros E. injection E as -> _. exact Hy.
Qed.

Lemma drop_while_fixed (x : A) (l : list A) :
  p x = false -> drop_while p (x :: l) = x :: l.
Proof. intros Hx. simpl. rewrite Hx. reflexivity. Qed.

Lemma drop_while_idem (l : list A) :
  drop_while p (drop_while p l) = drop_while p l.
Proof.
  destruct (drop_while p l) as [|x l'] eqn:E; [reflexivity|].
  apply drop_while_fixed. eapply drop_while_head, E.
Qed.

Lemma drop_while_all (l : list A) :
  Forall (fun x => p x = true) l -> drop_while p l = [].
Proof. induction 1 as [|x l Hx _ IH]; simpl; [|rewrite Hx]; auto. Qed.

End DropWhile.

Lemma strip_split (s : str) :
  exists l t, s = l ++ strip s ++ t /\ all_space l /\ all_space t.
Proof.
  unfold strip, rstrip, lstrip.
  destruct (drop_while_split isspace s) as [l [El Fl]].
  set (a := drop_while isspace s) in *.
  destruct (drop_while_split isspace (rev a)) as [t [Et Ft]].
  exists l, (rev t). repeat split.
  - rewrite El at 1. f_equal.
    rewrite <- (rev_involutive a), Et at 1. now rewrite rev_app_distr.
  - exact Fl.
  - now apply List.Forall_rev.
Qed.

Lemma strip_idem (s : str) : strip (strip s) = strip s.
Proof.
  unfold strip, rstrip, lstrip.
  set (a := drop_while isspace s).
  set (b := rev (drop_while isspace (rev a))).
  assert (Hb : drop_while isspace b = b).
  { destruct b as [|x b'] eqn:Eb; [reflexivity|].
    apply drop_while_fixed.
    destruct (drop_while_split isspace (rev a)) as [t [Et _]].
    assert (Ea : a = (x :: b') ++ rev t).
    { rewrite <- (rev_involutive a), Et, rev_app_distr. subst b.
      now rewrite Eb. }
    destruct a as [|y a'] eqn:Ea'; [discriminate|].
    injection Ea as -> _. subst a.
    eapply drop_while_head, Ea'. }
  rewrite Hb. subst b. rewrite rev_involutive, drop_while_idem. reflexivity.
Qed.

(** ** Chunking *)

Lemma slice_window (text : str) (n j : nat) :
  slice text (Z.of_nat j * Z.of_nat n) (Z.of_nat j * Z.of_nat n + Z.of_nat n)
  = take n (drop (j * n) text).
Proof.
  unfold slice, slice_bound, len.
  set (L := length text).
  assert (H1 : (Z.of_nat j * Z.of_nat n <? 0) = false) by (apply Z.ltb_ge; lia).
  assert (H2 : (Z.of_nat j * Z.of_nat n + Z.of_nat n <? 0) = false)
    by (apply Z.ltb_ge; lia).
  rewrite H1, H2.
  destruct (le_lt_dec L (j * n)) as [Hge | Hlt].
  - rewrite (drop_ge text (j * n)) by exact Hge.
    rewrite drop_ge by (fold L; lia).
    now rewrite !take_nil.
  - replace (Z.to_nat (Z.min (Z.of_nat j * Z.of_nat n) (Z.of_nat L)))
      with (j * n)%nat by lia.
    set (d := drop (j * n) text).
    assert (Hd : length d = (L - j * n)%nat) by apply length_drop.
    destruct (le_lt_dec (L - j * n) n) as [Hs | Hs].
    + rewrite !take_ge by lia. reflexivity.
    + f_equal. lia.
Qed.

Lemma windows_fuel_slices (n : nat) :
  (0 < n)%nat ->
  forall (fuel : nat) (text : str) (k : nat),
    (length text <= fuel)%nat ->
    (length text <= k * n)%nat ->
    (k = 0%nat \/ ((k - 1) * n < length text)%nat) ->
    windows_fuel fuel n text
    = map (fun j => take n (drop (j * n) text)) (seq 0 k).
Proof.
  intros Hn. induction fuel as [|fuel IH]; intros text k Hf Hk Hk'.
  - destruct text; [|simpl in Hf; lia].
    destruct k as [|k]; [reflexivity|]. simpl in Hk'. lia.
  - destruct k as [|k].
    { destruct text; [reflexivity | simpl in Hk; lia]. }
    assert (Hlen : (0 < length text)%nat).
    { destruct Hk' as [Hk' | Hk']; [discriminate | lia]. }
    assert (Ew : windows_fuel (S fuel) n text
                 = take n text :: windows_fuel fuel n (drop n text)).
    { destruct text; [simpl in Hlen; lia | reflexivity]. }
    rewrite Ew, <- cons_seq, <- fmap_S_seq. simpl map.
    rewrite drop_0. f_equal.
    rewrite (IH (drop n text) k).
    + rewrite <- list_fmap_compose. apply map_ext. intros j. simpl.
      rewrite drop_drop. repeat (f_equal; try lia).
    + rewrite length_drop. lia.
    + rewrite length_drop. simpl in Hk. lia.
    + rewrite length_drop. destruct k as [|k]; [now left | right].
      destruct Hk' as [Hk' | Hk']; [discriminate|].
      simpl in Hk'. simpl. rewrite Nat.sub_0_r in *. lia.
Qed.

Lemma range_length_bounds (L cs : Z) :
  0 < L -> 0 < cs ->
  let k := range_length 0 L cs in
  0 < k /\ L <= k * cs /\ (k - 1) * cs < L.
Proof.
  intros HL Hcs. unfold range_length. simpl.
  assert (E1 : (0 <? cs) = true) by now apply Z.ltb_lt.
  assert (E2 : (0 <? L) = true) by now apply Z.ltb_lt.
  rewrite E1, E2. rewrite Z.sub_0_r.
  pose proof (Z.div_mod (L - 1) cs ltac:(lia)) as Hdm.
  pose proof (Z.mod_pos_bound (L - 1) cs Hcs) as Hm.
  pose proof (Z.div_pos (L - 1) cs ltac:(lia) Hcs) as Hq.
  set (q := (L - 1) / cs) in *.
  repeat split; nia.
Qed.

Lemma range_windows (text : str) (cs : Z) :
  0 < cs ->
  exists idx,
    range 0 (len text) cs = Ok idx /\
    map (fun i => slice text i (i + cs)) idx = windows (Z.to_nat cs) text /\
    length idx = Z.to_nat (range_length 0 (len text) cs).
Proof.
  intros Hcs. unfold range.
  assert (E : (cs =? 0) = false) by (apply Z.eqb_neq; lia).
  rewrite E. eexists. split; [reflexivity|]. split.
  2:{ now rewrite length_map, length_seq. }
  set (n := Z.to_nat cs).
  assert (Hn : (0 < n)%nat) by lia.
  rewrite <- list_fmap_compose.
  unfold windows.
  destruct (decide (length text = 0%nat)) as [H0 | H0].
  - destruct text; [|discriminate]. unfold range_length.
    replace (0 <? cs) with true by (symmetry; now apply Z.ltb_lt).
    reflexivity.
  - pose proof (range_length_bounds (len text) cs ltac:(unfold len; lia) Hcs)
      as [Hk [Hk1 Hk2]].
    set (k := range_length 0 (len text) cs) in *.
    rewrite (windows_fuel_slices n Hn (length text) text (Z.to_nat k));
      unfold len in *; try nia.
    apply map_ext. intros j. simpl.
    replace cs with (Z.of_nat n) by lia.
    rewrite <- slice_window. f_equal; lia.
Qed.

Lemma chunk_text_loop (text : str) (cs : Z) (idx : list Z)
    (chunks : list str) :
  foldl (chunk_text_step text cs) chunks idx
  = chunks ++ filter long_enough
                (map strip (map (fun i => slice text i (i + cs)) idx)).
Proof.
  revert chunks. induction idx as [|i idx IH]; intros chunks.
  - simpl. now rewrite app_nil_r.
  - change (foldl (chunk_text_step text cs) chunks (i :: idx))
      with (foldl (chunk_text_step text cs)
                  (chunk_text_step text cs chunks i) idx).
    rewrite IH. unfold chunk_text_step. rewrite !map_cons, filter_cons.
    unfold long_enough at 2.
    destruct (50 <? len (strip (slice text i (i + cs)))) eqn:E.
    + apply Z.ltb_lt in E. rewrite decide_True by exact E.
      now rewrite <- app_assoc.
    + apply Z.ltb_ge in E.
      rewrite decide_False by (unfold long_enough; lia). reflexivity.
Qed.

Lemma chunk_text_windows (text : str) (cs : Z) :
  0 < cs ->
  chunk_text text cs
  = Ok (filter long_enough (map strip (windows (Z.to_nat cs) text))).
Proof.
  intros Hcs. unfold chunk_text.
  destruct (range_windows text cs Hcs) as [idx [-> [Hw _]]].
  rewrite chunk_text_loop, Hw. reflexivity.
Qed.

Lemma windows_fuel_concat (n : nat) :
  (0 < n)%nat ->
  forall (fuel : nat) (text : str),
    (length text <= fuel)%nat -> concat (windows_fuel fuel n text) = text.
Proof.
  intros Hn. induction fuel as [|fuel IH]; intros text Hf.
  - destruct text; [reflexivity | simpl in Hf; lia].
  - destruct text as [|c text']; [reflexivity|].
    set (text := c :: text') in *.
    change (concat (take n text :: windows_fuel fuel n (drop n text)) = text).
    simpl concat. rewrite IH.
    + apply take_drop.
    + rewrite length_drop. subst text. simpl in *. lia.
Qed.

Lemma windows_concat (n : nat) (text : str) :
  (0 < n)%nat -> concat (windows n text) = text.
Proof. intros Hn. now apply windows_fuel_concat. Qed.

Lemma windows_count (text : str) (cs : Z) (j : nat) :
  0 < cs ->
  (j < length (windows (Z.to_nat cs) text))%nat
  <-> Z.of_nat j * cs < len text.
Proof.
  intros Hcs.
  destruct (range_windows text cs Hcs) as [idx [_ [Hw Hl]]].
  rewrite <- Hw, length_map, Hl.
  destruct (decide (len text = 0)) as [H0 | H0].
  - rewrite H0. unfold range_length.
    replace (0 <? cs) with true by (symmetry; now apply Z.ltb_lt).
    simpl. split; [lia | nia].
  - pose proof (range_length_bounds (len text) cs ltac:(unfold len in *; lia)
                  Hcs) as [Hk [Hk1 Hk2]].
    set (k := range_length 0 (len text) cs) in *.
    split; intros Hj; nia.
Qed.

Lemma windows_are_slices (text : str) (cs : Z) :
  0 < cs ->
  let ws := windows (Z.to_nat cs) text in
  ws = map (fun j => slice text (Z.of_nat j * cs) (Z.of_nat j * cs + cs))
           (seq 0 (length ws)).
Proof.
  intros Hcs ws.
  destruct (range_windows text cs Hcs) as [idx [Hr [Hw Hl]]].
  unfold range in Hr.
  replace (cs =? 0) with false in Hr by (symmetry; apply Z.eqb_neq; lia).
  injection Hr as Hr. subst ws. rewrite <- Hw at 1.
  rewrite <- Hw, length_map, Hl, <- Hr, <- list_fmap_compose.
  apply map_ext. intros j. reflexivity.
Qed.

Lemma windows_pieces (ws : list str) :
  exists pieces : list piece,
    ws = map piece_text pieces /\
    Forall (fun p => all_space (lead p) /\ all_space (trail p)
                     /\ core p = strip (piece_text p)) pieces /\
    map strip ws = map core pieces.
Proof.
  induction ws as [|w ws [pieces [E [F M]]]].
  - exists []. repeat split; constructor.
  - destruct (strip_split w) as [l [t [Ew [Hl Ht]]]].
    assert (Ep : piece_text {| lead := l; core := strip w; trail := t |}
                 = w) by (unfold piece_text; simpl; congruence).
    exists ({| lead := l; core := strip w; trail := t |} :: pieces).
    repeat split.
    + rewrite map_cons, Ep. congruence.
    + constructor; [|exact F]. rewrite Ep. simpl. auto.
    + simpl. congruence.
Qed.

Lemma weave_without_space (gaps : list (str * str)) (chunks : list str) :
  length gaps = length chunks ->
  Forall (fun g => all_space (fst g) /\ all_space (snd g)) gaps ->
  List.filter (fun c => negb (isspace c)) (weave gaps chunks)
  = List.filter (fun c => negb (isspace c)) (concat chunks).
Proof.
  assert (Hs : forall s, all_space s ->
                 List.filter (fun c => negb (isspace c)) s = []).
  { induction 1 as [|c s Hc _ IH]; simpl; [|rewrite Hc]; auto. }
  revert chunks. induction gaps as [|[l t] gaps IH]; intros chunks Hlen F.
  - destruct chunks; [reflexivity | discriminate].
  - destruct chunks as [|c chunks]; [discriminate|].
    inversion F as [|g gs [Hl Ht] F']; subst. simpl in *.
    rewrite !List.filter_app, (Hs l Hl), (Hs t Ht), IH by congruence.
    reflexivity.
Qed.

(** C2. For a positive [chunk_size], [chunk_text] returns the stripped
    windows [text[i : i+chunk_size]], [i = 0, chunk_size, 2*chunk_size, ...]
    below [len(text)], that are longer than 50 characters once stripped,
    in their order; the windows are consecutive and cover the text. *)
Theorem chunk_text_stripped_long_windows (text : str) (chunk_size : Z) :
  0 < chunk_size ->
  let ws := windows (Z.to_nat chunk_size) text in
  chunk_text text chunk_size = Ok (filter long_enough (map strip ws)) /\
  ws = map (fun j => slice text (Z.of_nat j * chunk_size)
                       (Z.of_nat j * chunk_size + chunk_size))
           (seq 0 (length ws)) /\
  (forall j : nat,
      (j < length ws)%nat <-> Z.of_nat j * chunk_size < len text) /\
  concat ws = text.
Proof.
  intros Hcs ws. split; [|split; [|split]].
  - now apply chunk_text_windows.
  - now apply windows_are_slices.
  - intros j. now apply windows_count.
  - apply windows_concat. lia.
Qed.

Lemma chunk_text_stripped_long_windows_witness :
  chunk_text dropped_middle_text 400
  = Ok (filter long_enough (map strip (windows 400 dropped_middle_text))).
Proof.
  exact (proj1 (chunk_text_stripped_long_windows dropped_middle_text 400
                  eq_refl)).
Defined.

Example chunk_text_dropped_middle :
  chunk_text dropped_middle_text default_chunk_size
  = Ok dropped_middle_chunks.
Proof. vm_compute. reflexivity. Qed.

(** C3, as stated, fails: the one [x] of the middle window is dropped,
    and it is neither trimmed whitespace nor at the end of the text. *)
Lemma chunk_text_drops_inside_the_text :
  chunk_text dropped_middle_text default_chunk_size
  = Ok dropped_middle_chunks /\
  ~ rebuilt_up_to_trailing dropped_middle_text dropped_middle_chunks.
Proof.
  split; [vm_compute; reflexivity|].
  intros [gaps [frags [Hlen [Hg [_ E]]]]].
  apply (f_equal (List.filter (fun c => negb (isspace c)))) in E.
  rewrite List.filter_app, (weave_without_space _ _ Hlen Hg) in E.
  apply (f_equal (take 61)) in E.
  rewrite take_app_le in E by (vm_compute; lia).
  vm_compute in E. discriminate E.
Qed.

Lemma windows_rebuilt (text : str) (chunk_size : Z) :
  0 < chunk_size ->
  rebuilt_up_to_short_windows chunk_size text
    (filter long_enough (map strip (windows (Z.to_nat chunk_size) text))).
Proof.
  intros Hcs.
  destruct (windows_pieces (windows (Z.to_nat chunk_size) text))
    as [pieces [E [F M]]].
  assert (Hlen : length (windows (Z.to_nat chunk_size) text)
                 = length pieces) by now rewrite E, length_map.
  exists pieces. split; [|split; [|split; [|split]]].
  - rewrite <- E, <- Hlen. now apply windows_are_slices.
  - intros j. rewrite <- Hlen. now apply windows_count.
  - rewrite <- E. symmetry. apply windows_concat. lia.
  - exact F.
  - now rewrite M.
Qed.

(** C3, amended. For a positive [chunk_size] the text is the
    concatenation of its windows [text[j*chunk_size : (j+1)*chunk_size]],
    one for each [j] with [j*chunk_size < len(text)]; each window is
    leading whitespace, its stripped form and trailing whitespace; and the
    chunks are, in order, exactly the stripped windows longer than 50
    characters: besides trimmed whitespace, what is dropped is every
    window whose stripped form has at most 50 characters, wherever it
    lies. *)
Theorem chunk_text_rebuilds_up_to_short_windows (text : str)
    (chunk_size : Z) :
  0 < chunk_size ->
  exists chunks,
    chunk_text text chunk_size = Ok chunks /\
    rebuilt_up_to_short_windows chunk_size text chunks.
Proof.
  intros Hcs. eexists. split; [now apply chunk_text_windows|].
  now apply windows_rebuilt.
Qed.

Lemma chunk_text_rebuilds_up_to_short_windows_witness :
  exists chunks,
    chunk_text dropped_middle_text 400 = Ok chunks /\
    rebuilt_up_to_short_windows 400 dropped_middle_text chunks.
Proof.
  exact (chunk_text_rebuilds_up_to_short_windows dropped_middle_text 400
           eq_refl).
Defined.

(** The amended statement fixes the chunks: a text has one list of
    chunks that is rebuilt in this way. *)
Lemma rebuilt_up_to_short_windows_unique (chunk_size : Z) (text : str)
    (chunks1 chunks2 : list str) :
  rebuilt_up_to_short_windows chunk_size text chunks1 ->
  rebuilt_up_to_short_windows chunk_size text chunks2 ->
  chunks1 = chunks2.
Proof.
  intros [ps1 [W1 [N1 [_ [F1 ->]]]]] [ps2 [W2 [N2 [_ [F2 ->]]]]].
  assert (Hn : length ps1 = length ps2).
  { destruct (Nat.lt_trichotomy (length ps1) (length ps2))
      as [Hlt | [Heq | Hgt]]; [|exact Heq|].
    - apply N2, N1 in Hlt. lia.
    - apply N1, N2 in Hgt. lia. }
  assert (Hcore : forall ps,
             Forall (fun p => all_space (lead p) /\ all_space (trail p)
                              /\ core p = strip (piece_text p)) ps ->
             map core ps = map strip (map piece_text ps)).
  { induction 1 as [|q ps [_ [_ Hq]] _ IH]; [reflexivity|].
    simpl. now rewrite Hq, IH. }
  rewrite (Hcore ps1 F1), (Hcore ps2 F2), W1, W2, Hn. reflexivity.
Qed.

(** Being rebuilt in this way is being the outcome of [chunk_text]. *)
Lemma rebuilt_up_to_short_windows_iff (chunk_size : Z) (text : str)
    (chunks : list str) :
  0 < chunk_size ->
  rebuilt_up_to_short_windows chunk_size text chunks
  <-> chunk_text text chunk_size = Ok chunks.
Proof.
  intros Hcs. rewrite chunk_text_windows by exact Hcs. split.
  - intros Hr. f_equal. symmetry.
    eapply rebuilt_up_to_short_windows_unique; [exact Hr|].
    now apply windows_rebuilt.
  - intros E. injection E as <-. now apply windows_rebuilt.
Qed.

Example nothing_is_not_rebuilt :
  ~ rebuilt_up_to_short_windows 400 dropped_middle_text [].
Proof.
  intros Hr.
  apply (rebuilt_up_to_short_windows_iff 400 dropped_middle_text []) in Hr;
    [|reflexivity].
  vm_compute in Hr. discriminate Hr.
Qed.

(** ** Sorting *)

Section Sort.
Context {A : Type} (key : A -> nat).

Lemma filter_rev (P : A -> Prop) `{forall x, Decision (P x)} (l : list A) :
  filter P (rev l) = rev (filter P l).
Proof.
  induction l as [|x l IH]; [reflexivity|].
  simpl rev.
  rewrite filter_app, IH, (filter_cons P x l), (filter_cons P x []).
  rewrite filter_nil.
  destruct (decide (P x)); simpl.
  - reflexivity.
  - now rewrite app_nil_r.
Qed.

Lemma insert_by_perm (x : A) (l : list A) : insert_by key x l ≡ₚ x :: l.
Proof.
  induction l as [|y l IH]; simpl; [reflexivity|].
  destruct (key y <? key x)%nat; [|reflexivity].
  rewrite IH. apply perm_swap.
Qed.

Lemma sort_forward_perm (l : list A) : sort_forward key l ≡ₚ l.
Proof.
  induction l as [|x l IH]; simpl; [reflexivity|].
  fold (sort_forward key l). now rewrite insert_by_perm, IH.
Qed.

Lemma insert_by_sorted (x : A) (l : list A) :
  StronglySorted (ascending key) l -> StronglySorted (ascending key) (insert_by key x l).
Proof.
  induction 1 as [|y l Hl IH Hy]; simpl.
  - repeat constructor.
  - destruct (key y <? key x)%nat eqn:E.
    + apply Nat.ltb_lt in E. constructor; [exact IH|].
      rewrite insert_by_perm. constructor; [unfold ascending; lia | exact Hy].
    + apply Nat.ltb_ge in E. constructor; [now constructor|].
      constructor; [exact E|].
      eapply Forall_impl; [exact Hy|]. unfold ascending. intros; lia.
Qed.

Lemma sort_forward_sorted (l : list A) :
  StronglySorted (ascending key) (sort_forward key l).
Proof.
  induction l as [|x l IH]; simpl; [constructor|].
  now apply insert_by_sorted.
Qed.

Lemma insert_by_stable (P : A -> Prop) `{forall x, Decision (P x)}
    (x : A) (l : list A) :
  (forall a b, P a -> P b -> key a = key b) ->
  filter P (insert_by key x l) = filter P (x :: l).
Proof.
  intros HP. induction l as [|y l IH]; simpl; [reflexivity|].
  destruct (key y <? key x)%nat eqn:E; [|reflexivity].
  apply Nat.ltb_lt in E.
  rewrite (filter_cons _ y), IH, !(filter_cons _ x), (filter_cons _ y).
  destruct (decide (P x)) as [Px|]; [|reflexivity].
  destruct (decide (P y)) as [Py|]; [|reflexivity].
  specialize (HP _ _ Px Py). lia.
Qed.

Lemma sort_forward_stable (P : A -> Prop) `{forall x, Decision (P x)}
    (l : list A) :
  (forall a b, P a -> P b -> key a = key b) ->
  filter P (sort_forward key l) = filter P l.
Proof.
  intros HP. induction l as [|x l IH]; simpl; [reflexivity|].
  fold (sort_forward key l).
  rewrite insert_by_stable, !filter_cons, IH by exact HP. reflexivity.
Qed.

Lemma strongly_sorted_rev (l : list A) :
  StronglySorted (ascending key) l -> StronglySorted (descending key) (rev l).
Proof.
  induction 1 as [|x l Hl IH Hx]; simpl; [constructor|].
  apply StronglySorted_app_2; [| exact IH | repeat constructor].
  intros a b Ha Hb. apply list_elem_of_singleton in Hb. subst b.
  apply list_elem_of_In, in_rev, list_elem_of_In in Ha.
  rewrite Forall_forall in Hx. exact (Hx a Ha).
Qed.

(** The three facts that fix the outcome of a reverse sort. *)
Lemma list_sort_reverse_perm (l : list A) : list_sort key true l ≡ₚ l.
Proof.
  unfold list_sort.
  rewrite <- (Permutation_rev (sort_forward key (rev l))).
  rewrite sort_forward_perm. symmetry. apply Permutation_rev.
Qed.

Lemma list_sort_reverse_sorted (l : list A) :
  StronglySorted (descending key) (list_sort key true l).
Proof. apply strongly_sorted_rev, sort_forward_sorted. Qed.

Lemma list_sort_reverse_stable (P : A -> Prop) `{forall x, Decision (P x)}
    (l : list A) :
  (forall a b, P a -> P b -> key a = key b) ->
  filter P (list_sort key true l) = filter P l.
Proof.
  intros HP. unfold list_sort.
  rewrite filter_rev, sort_forward_stable, filter_rev by exact HP.
  apply rev_involutive.
Qed.

End Sort.

Lemma insert_by_map {A B} (f : A -> B) (key : B -> nat) (x : A)
    (l : list A) :
  insert_by key (f x) (map f l) = map f (insert_by (key ∘ f) x l).
Proof.
  induction l as [|y l IH]; simpl; [reflexivity|].
  destruct (key (f y) <? key (f x))%nat; simpl; congruence.
Qed.

Lemma list_sort_map {A B} (f : A -> B) (key : B -> nat) (reverse : bool)
    (l : list A) :
  list_sort key reverse (map f l) = map f (list_sort (key ∘ f) reverse l).
Proof.
  assert (Hs : forall l, sort_forward key (map f l)
                         = map f (sort_forward (key ∘ f) l)).
  { clear l. induction l as [|x l IH]; simpl; [reflexivity|].
    fold (sort_forward key (map f l)) (sort_forward (key ∘ f) l).
    now rewrite IH, insert_by_map. }
  unfold list_sort. destruct reverse; [|apply Hs].
  now rewrite <- map_rev, Hs, map_rev.
Qed.

(** ** Slices *)

Lemma slice_to_take {A} (l : list A) (hi : Z) :
  slice_to l hi = take (Z.to_nat (slice_bound (len l) hi)) l.
Proof.
  unfold slice_to, slice. 
  assert (E : slice_bound (len l) 0 = 0).
  { unfold slice_bound, len. simpl. lia. }
  rewrite E, Z.sub_0_r. reflexivity.
Qed.

Lemma slice_to_map {A B} (f : A -> B) (l : list A) (hi : Z) :
  slice_to (map f l) hi = map f (slice_to l hi).
Proof.
  rewrite !slice_to_take. unfold len. rewrite length_map.
  symmetry. apply fmap_take.
Qed.

Lemma slice_to_length {A} (l : list A) (hi : Z) :
  0 <= hi -> len (slice_to l hi) <= hi.
Proof.
  intros Hhi. rewrite slice_to_take. unfold len, slice_bound.
  rewrite length_take.
  destruct (hi <? 0) eqn:E; [apply Z.ltb_lt in E; lia|]. lia.
Qed.

Lemma slice_to_prefix {A} (l : list A) (hi : Z) :
  slice_to l hi `prefix_of` l.
Proof. rewrite slice_to_take. apply prefix_take. Qed.

(** ** Retrieval *)

Section RetrievalFacts.
Context `{UnicodeData}.

Lemma score_loop (query_words : gset str) (corpus : list str)
    (scored : list (nat * str)) :
  foldl (score_step query_words) scored corpus
  = scored ++ map (fun c => (overlap_score query_words c, c))
                  (filter (relevant query_words) corpus).
Proof.
  revert scored. induction corpus as [|c corpus IH]; intros scored.
  - simpl. now rewrite app_nil_r.
  - change (foldl (score_step query_words) scored (c :: corpus))
      with (foldl (score_step query_words)
                  (score_step query_words scored c) corpus).
    rewrite IH, filter_cons. unfold score_step, relevant at 2.
    destruct (0 <? overlap_score query_words c)%nat eqn:E.
    + apply Nat.ltb_lt in E. rewrite decide_True by exact E.
      now rewrite <- app_assoc.
    + apply Nat.ltb_ge in E.
      rewrite decide_False by (unfold relevant; lia). reflexivity.
Qed.

(** Retrieval without the loop and without the pairs. *)
Lemma retrieve_closed_form (corpus : list str) (query : str) (top_k : Z) :
  retrieve_relevant_chunks corpus query top_k
  = if (size (clean_words query) =? 0)%nat then []
    else slice_to (list_sort (overlap_score (clean_words query)) true
                             (filter (relevant (clean_words query)) corpus))
                  top_k.
Proof.
  unfold retrieve_relevant_chunks.
  destruct (size (clean_words query) =? 0)%nat; [reflexivity|].
  rewrite score_loop, app_nil_l, list_sort_map, slice_to_map, map_map.
  simpl. apply map_id.
Qed.

Lemma retrieve_prefix_of_sorted (corpus : list str) (query : str)
    (top_k : Z) :
  retrieve_relevant_chunks corpus query top_k
  `prefix_of` list_sort (overlap_score (clean_words query)) true
                (filter (relevant (clean_words query)) corpus).
Proof.
  rewrite retrieve_closed_form.
  destruct (size (clean_words query) =? 0)%nat;
    [apply prefix_nil | apply slice_to_prefix].
Qed.

Lemma strongly_sorted_prefix {A} (R : relation A) (l1 l2 : list A) :
  l1 `prefix_of` l2 -> StronglySorted R l2 -> StronglySorted R l1.
Proof. intros [k ->]. apply StronglySorted_app_1_l. Qed.

Lemma filter_prefix {A} (P : A -> Prop) `{forall x, Decision (P x)}
    (l1 l2 : list A) :
  l1 `prefix_of` l2 -> filter P l1 `prefix_of` filter P l2.
Proof. intros [k ->]. rewrite filter_app. now apply prefix_app_r. Qed.

(** C1. With a non-negative [top_k], [retrieve_relevant_chunks] returns
    at most [top_k] chunks, each one a chunk of the corpus that shares a
    word with the query, in descending order of overlap; an empty query
    word set and an empty corpus both give the empty sequence. *)
Theorem retrieve_relevant_chunks_top_k (corpus : list str) (query : str)
    (top_k : Z) :
  0 <= top_k ->
  let query_words := clean_words query in
  let found := retrieve_relevant_chunks corpus query top_k in
  len found <= top_k /\
  Forall (fun chunk =>
            chunk ∈ corpus /\
            (0 < size (query_words ∩ clean_words chunk))%nat) found /\
  StronglySorted (descending (overlap_score query_words)) found /\
  (query_words = ∅ -> found = []) /\
  (corpus = [] -> found = []).
Proof.
  intros Hk query_words found.
  pose proof (retrieve_prefix_of_sorted corpus query top_k) as Hp.
  fold query_words found in Hp.
  split; [|split; [|split; [|split]]].
  - subst found. rewrite retrieve_closed_form.
    destruct (size (clean_words query) =? 0)%nat;
      [exact Hk | now apply slice_to_length].
  - apply Forall_forall. intros chunk Hc.
    pose proof (elem_of_prefix _ _ _ Hc Hp) as Hs.
    rewrite list_sort_reverse_perm in Hs.
    apply list_elem_of_filter in Hs. destruct Hs as [Hr Hin].
    split; [exact Hin | exact Hr].
  - eapply strongly_sorted_prefix; [exact Hp|].
    apply list_sort_reverse_sorted.
  - intros E. subst found. unfold retrieve_relevant_chunks.
    fold query_words. rewrite E, size_empty. reflexivity.
  - intros ->. subst found. rewrite retrieve_closed_form.
    destruct (size (clean_words query) =? 0)%nat; [reflexivity|].
    rewrite filter_nil, slice_to_take. apply take_nil.
Qed.

(** C4. Among the chunks of one overlap count, the returned sequence
    keeps the order of the corpus: for each count, the returned chunks of
    that count are the first ones of the corpus with that count. *)
Theorem retrieve_relevant_chunks_keeps_corpus_order (corpus : list str)
    (query : str) (top_k : Z) (count : nat) :
  let query_words := clean_words query in
  filter (fun chunk => overlap_score query_words chunk = count)
         (retrieve_relevant_chunks corpus query top_k)
  `prefix_of`
  filter (fun chunk => overlap_score query_words chunk = count) corpus.
Proof.
  intros query_words.
  etransitivity.
  { apply filter_prefix, retrieve_prefix_of_sorted. }
  fold query_words.
  rewrite list_sort_reverse_stable by (intros a b Ha Hb; congruence).
  rewrite list_filter_filter.
  destruct count as [|count].
  - replace (filter _ corpus) with (@nil str) at 1; [apply prefix_nil|].
    symmetry. induction corpus as [|c corpus IH]; [reflexivity|].
    rewrite filter_cons_False; [exact IH|].
    unfold relevant. intros [E1 E2]. lia.
  - erewrite list_filter_iff; [reflexivity|].
    intros c. unfold relevant. simpl. split; [tauto | lia].
Qed.

End RetrievalFacts.

(** ** Normalisation *)

Ltac bool_to_prop H :=
  rewrite ?orb_true_iff, ?andb_true_iff, ?N.leb_le, ?N.eqb_eq, ?N.ltb_lt in H.

Lemma isspace_range (c : N) :
  isspace c = true -> (0x09 <= c <= 0x20 \/ 0x85 <= c)%N.
Proof. unfold isspace. intros Hc. bool_to_prop Hc. lia. Qed.

Lemma alnum_range (c : N) : alnum c = true -> (0x30 <= c <= 0x7A)%N.
Proof. unfold alnum. intros Hc. bool_to_prop Hc. lia. Qed.

Lemma alnum_not_space (c : N) : alnum c = true -> isspace c = false.
Proof.
  intros Ha. destruct (isspace c) eqn:Hs; [|reflexivity].
  apply isspace_range in Hs. apply alnum_range in Ha. lia.
Qed.

Lemma in_class_not_space (c : N) :
  in_class_a_z_0_9_s c = true -> isspace c = false -> alnum c = true.
Proof.
  unfold in_class_a_z_0_9_s. fold (alnum c). intros Hc Hs.
  rewrite Hs, orb_false_r in Hc. exact Hc.
Qed.

Lemma replace_outside_class_in_class (c : N) :
  in_class_a_z_0_9_s (replace_outside_class c) = true.
Proof.
  unfold replace_outside_class.
  destruct (in_class_a_z_0_9_s c) eqn:E; [exact E | reflexivity].
Qed.

Lemma replace_outside_class_alnum (c : N) :
  alnum c = true -> replace_outside_class c = c.
Proof.
  intros Ha. unfold replace_outside_class, in_class_a_z_0_9_s.
  fold (alnum c). now rewrite Ha.
Qed.

(** *** [split] *)

Lemma split_from_space (cur a b : str) (c : N) :
  isspace c = true ->
  split_from cur (a ++ c :: b) = split_from cur a ++ split b.
Proof.
  intros Hc. revert cur. induction a as [|x a IH]; intros cur; simpl.
  - now rewrite Hc.
  - destruct (isspace x); [|apply IH].
    rewrite IH. now rewrite app_assoc.
Qed.

Lemma split_from_run (cur w s : str) :
  Forall (fun c => isspace c = false) w ->
  split_from cur (w ++ s) = split_from (rev w ++ cur) s.
Proof.
  intros Hw. revert cur. induction Hw as [|c w Hc _ IH]; intros cur; simpl.
  - reflexivity.
  - rewrite Hc, IH, <- app_assoc. reflexivity.
Qed.

Lemma split_word (w : str) : is_word w -> split w = [w].
Proof.
  intros [Hne Hw]. unfold split.
  rewrite <- (app_nil_r w) at 1. rewrite split_from_run.
  - simpl. rewrite app_nil_r. destruct (rev w) as [|c r] eqn:E.
    + apply (f_equal (@rev N)) in E. rewrite rev_involutive in E.
      contradiction.
    + unfold flush. rewrite <- E. now rewrite rev_involutive.
  - eapply Forall_impl; [exact Hw|]. apply alnum_not_space.
Qed.

Lemma split_from_runs (P : N -> Prop) (cur s : str) :
  Forall (fun c => isspace c = false /\ P c) cur ->
  Forall P s ->
  Forall (fun w => w <> [] /\ Forall (fun c => isspace c = false /\ P c) w)
         (split_from cur s).
Proof.
  assert (Hflush : forall cur,
             Forall (fun c => isspace c = false /\ P c) cur ->
             Forall (fun w => w <> [] /\
                       Forall (fun c => isspace c = false /\ P c) w)
                    (flush cur)).
  { intros [|c cur'] Hcur; simpl; [constructor|].
    constructor; [|constructor]. split.
    - intros E. apply app_eq_nil in E. destruct E. discriminate.
    - change (rev cur' ++ [c]) with (rev (c :: cur')).
      now apply List.Forall_rev. }
  intros Hcur Hs. revert cur Hcur.
  induction Hs as [|c s Hc _ IH]; intros cur Hcur; simpl.
  - now apply Hflush.
  - destruct (isspace c) eqn:E.
    + apply Forall_app. split; [now apply Hflush | apply IH; constructor].
    + apply IH. constructor; [split; assumption | exact Hcur].
Qed.

Lemma split_join_words (l : list str) :
  Forall is_word l -> split (join [0x20%N] l) = l.
Proof.
  induction 1 as [|w l Hw Hl IH]; [reflexivity|].
  destruct l as [|w' l'].
  - simpl. now apply split_word.
  - change (join [32%N] (w :: w' :: l'))
      with (w ++ 32%N :: join [32%N] (w' :: l')).
    unfold split at 1. rewrite split_from_space by reflexivity.
    fold (split w). rewrite IH, split_word by exact Hw. reflexivity.
Qed.

(** *** [lower] followed by the substitution *)

Section Normalize.
Context `{UnicodeData}.

Lemma normalize_do_lower (before s : str) :
  re_sub_complement_with_space (do_lower before s)
  = flat_map normalize_one s.
Proof.
  revert before. induction s as [|c s IH]; intros before; [reflexivity|].
  simpl. unfold re_sub_complement_with_space in *.
  rewrite map_app, IH. f_equal.
  unfold lower_ucs4, normalize_one.
  destruct (c =? 0x3A3)%N; [|reflexivity].
  unfold handle_capital_sigma.
  match goal with |- context [if ?b then _ else _] => destruct b end;
    reflexivity.
Qed.

Lemma normalize_flat_map (text : str) :
  normalize text = flat_map normalize_one text.
Proof. apply normalize_do_lower. Qed.

Lemma normalize_app (a b : str) :
  normalize (a ++ b) = normalize a ++ normalize b.
Proof. rewrite !normalize_flat_map. apply flat_map_app. Qed.

Lemma normalize_one_fixed (c : N) :
  alnum c = true \/ c = 0x20%N -> normalize_one c = [c].
Proof.
  intros [Ha | ->]; [|reflexivity].
  pose proof (alnum_range c Ha) as Hr.
  unfold normalize_one, to_lower_full, ascii_lower.
  replace (c =? 0x3A3)%N with false by (symmetry; apply N.eqb_neq; lia).
  replace (c <? 128)%N with true by (symmetry; apply N.ltb_lt; lia).
  assert (E : ((0x41 <=? c) && (c <=? 0x5A))%N = false).
  { apply andb_false_iff. unfold alnum in Ha. bool_to_prop Ha.
    rewrite !N.leb_gt. lia. }
  rewrite E. simpl. now rewrite replace_outside_class_alnum.
Qed.

Lemma normalize_fixed (text : str) :
  Forall (fun c => alnum c = true \/ c = 0x20%N) text ->
  normalize text = text.
Proof.
  rewrite normalize_flat_map.
  induction 1 as [|c s Hc _ IH]; [reflexivity|].
  simpl. now rewrite IH, normalize_one_fixed.
Qed.

Lemma normalize_in_class (text : str) :
  Forall (fun c => in_class_a_z_0_9_s c = true) (normalize text).
Proof.
  unfold normalize, re_sub_complement_with_space.
  apply Forall_map, Forall_forall. intros c _.
  apply replace_outside_class_in_class.
Qed.

Lemma clean_words_split (text : str) :
  clean_words text = list_to_set (split (normalize text)).
Proof. reflexivity. Qed.

Lemma split_normalize_words (text : str) :
  Forall is_word (split (normalize text)).
Proof.
  eapply Forall_impl.
  - apply (split_from_runs (fun c => in_class_a_z_0_9_s c = true));
      [constructor | apply normalize_in_class].
  - intros w [Hne Hw]. split; [exact Hne|].
    eapply Forall_impl; [exact Hw|]. intros c [Hs Hc].
    now apply in_class_not_space.
Qed.

Lemma clean_words_are_words (text w : str) :
  w ∈ clean_words text -> is_word w.
Proof.
  rewrite clean_words_split, elem_of_list_to_set. intros Hw.
  pose proof (split_normalize_words text) as F.
  rewrite Forall_forall in F. now apply F.
Qed.

Lemma join_words_fixed (l : list str) :
  Forall is_word l ->
  Forall (fun c => alnum c = true \/ c = 0x20%N) (join [0x20%N] l).
Proof.
  induction 1 as [|w l [_ Hw] Hl IH]; [constructor|].
  assert (Fw : Forall (fun c => alnum c = true \/ c = 0x20%N) w).
  { eapply Forall_impl; [exact Hw|]. auto. }
  destruct l as [|w' l']; [exact Fw|].
  change (join [32%N] (w :: w' :: l'))
    with (w ++ 32%N :: join [32%N] (w' :: l')).
  apply Forall_app. split; [exact Fw|]. constructor; [now right | exact IH].
Qed.

Lemma clean_words_join (l : list str) :
  Forall is_word l -> clean_words (join (lit " ") l) = list_to_set l.
Proof.
  intros Hl. rewrite clean_words_split. change (lit " ") with [0x20%N].
  rewrite normalize_fixed by now apply join_words_fixed.
  now rewrite split_join_words.
Qed.

Lemma clean_words_append_word (chunk w : str) :
  is_word w ->
  clean_words (chunk ++ lit " " ++ w) = clean_words chunk ∪ {[ w ]}.
Proof.
  intros Hw. rewrite !clean_words_split. change (lit " ") with [0x20%N].
  rewrite normalize_app.
  rewrite (normalize_fixed ([32%N] ++ w)).
  2:{ constructor; [now right|]. destruct Hw as [_ Hw].
      eapply Forall_impl; [exact Hw|]. auto. }
  change (normalize chunk ++ [32%N] ++ w)
    with (normalize chunk ++ 32%N :: w).
  unfold split at 1. rewrite split_from_space by reflexivity.
  fold (split (normalize chunk)). rewrite (split_word w Hw).
  rewrite list_to_set_app_L. simpl. f_equal. apply (right_id_L ∅ (∪)).
Qed.

(** C5. Joining the words of [clean_words(s)], in any order, with a
    space and normalising the joined text gives [clean_words(s)] again. *)
Theorem clean_words_idempotent (s : str) (l : list str) :
  l ≡ₚ elements (clean_words s) ->
  clean_words (join (lit " ") l) = clean_words s.
Proof.
  intros Hl.
  assert (Hin : forall w, w ∈ l <-> w ∈ clean_words s).
  { intros w. now rewrite Hl, elem_of_elements. }
  rewrite clean_words_join.
  - apply set_eq. intros w. now rewrite elem_of_list_to_set.
  - apply Forall_forall. intros w Hw.
    eapply clean_words_are_words, Hin, Hw.
Qed.

(** C6. Appending, after a space, a word of the query's word set to the
    text of a chunk does not decrease the overlap score of the chunk. *)
Theorem overlap_score_monotonic (query chunk w : str) :
  w ∈ clean_words query ->
  (overlap_score (clean_words query) chunk
   <= overlap_score (clean_words query) (chunk ++ lit " " ++ w))%nat.
Proof.
  intros Hw. unfold overlap_score.
  rewrite clean_words_append_word by (eapply clean_words_are_words, Hw).
  apply subseteq_size, intersection_mono_l, union_subseteq_l.
Qed.

End Normalize.

Lemma retrieve_relevant_chunks_top_k_witness :
  let query_words := clean_words (H := ascii_only) (lit "cat dog") in
  let found :=
    retrieve_relevant_chunks (H := ascii_only) pets_corpus (lit "cat dog") 2 in
  len found <= 2 /\
  Forall (fun chunk =>
            chunk ∈ pets_corpus /\
            (0 < size (query_words ∩ clean_words (H := ascii_only) chunk))%nat)
         found /\
  StronglySorted (descending (overlap_score (H := ascii_only) query_words))
                 found /\
  (query_words = ∅ -> found = []) /\
  (pets_corpus = [] -> found = []).
Proof.
  apply (@retrieve_relevant_chunks_top_k ascii_only pets_corpus
           (lit "cat dog") 2).
  lia.
Defined.

(** A negative [top_k] cuts from the end, as slices do: three chunks
    match here and the last one is left out. *)
Example retrieve_negative_top_k :
  retrieve_relevant_chunks (H := ascii_only) pets_corpus (lit "cat dogs")
    (-1)
  = [lit "the cat sat on the mat"; lit "dogs bark loudly at night"].
Proof. vm_compute. reflexivity. Qed.

Example retrieve_cat_dog :
  retrieve_relevant_chunks (H := ascii_only) pets_corpus (lit "cat dog") 2
  = [lit "the cat sat on the mat"].
Proof. vm_compute. reflexivity. Qed.

Lemma clean_words_idempotent_witness :
  clean_words (H := ascii_only)
    (join (lit " ") [lit "hello"; lit "world"])
  = clean_words (H := ascii_only) (lit "Hello, World! hello").
Proof.
  apply (@clean_words_idempotent ascii_only (lit "Hello, World! hello")
           [lit "hello"; lit "world"]).
  vm_compute. reflexivity.
Defined.

Lemma overlap_score_monotonic_witness :
  (overlap_score (H := ascii_only)
     (clean_words (H := ascii_only) (lit "cat dog")) (lit "the mat")
   <= overlap_score (H := ascii_only)
        (clean_words (H := ascii_only) (lit "cat dog"))
        (lit "the mat" ++ lit " " ++ lit "cat"))%nat.
Proof.
  apply (@overlap_score_monotonic ascii_only (lit "cat dog") (lit "the mat")
           (lit "cat")).
  apply elem_of_list_to_set. vm_compute. apply list_elem_of_here.
Defined.

(** ** The operations *)

Lemma chunk_text_valid (text : str) (chunk_size : Z) (chunks : list str) :
  chunk_text text chunk_size = Ok chunks -> Forall valid_chunk chunks.
Proof.
  unfold chunk_text. destruct (range 0 (len text) chunk_size) as [idx|];
    [|discriminate].
  intros E. injection E as <-. rewrite chunk_text_loop, app_nil_l.
  apply Forall_forall. intros chunk Hc.
  apply list_elem_of_filter in Hc. destruct Hc as [Hlong Hc].
  apply list_elem_of_fmap in Hc. destruct Hc as [w [-> _]].
  split; [apply strip_idem | exact Hlong].
Qed.

Lemma process_pdfs_valid (files : option (list upload)) (p : process) :
  Forall valid_chunk (DOCUMENT_CHUNKS p) ->
  Forall valid_chunk (DOCUMENT_CHUNKS (snd (process_pdfs files p))).
Proof.
  intros Hp. unfold process_pdfs.
  destruct (negb (truthy_opt_list files)); [exact Hp|].
  destruct (extract_text_from_pdfs (default [] files)) as [text|];
    [|exact Hp].
  destruct (chunk_text text default_chunk_size) as [chunks|] eqn:E;
    [|exact Hp].
  simpl. eapply chunk_text_valid, E.
Qed.

Section OperationFacts.
Context `{UnicodeData}.

Lemma ask_groq_corpus (question : str) (p : process) :
  DOCUMENT_CHUNKS (snd (ask_groq question p)) = DOCUMENT_CHUNKS p.
Proof.
  unfold ask_groq.
  destruct (negb (truthy_str (GROQ_API_KEY p))); [reflexivity|].
  destruct (negb (truthy_list _)); [reflexivity|].
  match goal with |- context [requests_post ?q ?r] =>
    destruct (requests_post q r) as [resp|] end; [|reflexivity].
  destruct (status_code resp =? 200); [|reflexivity].
  destruct (choice_content resp); reflexivity.
Qed.

Lemma chat_fn_corpus (message : str) (history : option (list chat_message))
    (p : process) :
  DOCUMENT_CHUNKS (snd (chat_fn message history p)) = DOCUMENT_CHUNKS p.
Proof.
  unfold chat_fn.
  destruct (negb (truthy_list (DOCUMENT_CHUNKS p))); [reflexivity|].
  pose proof (ask_groq_corpus message p) as E.
  destruct (ask_groq message p) as [[reply|e] p']; exact E.
Qed.

Lemma step_valid (p : process) (op : operation) :
  Forall valid_chunk (DOCUMENT_CHUNKS p) ->
  Forall valid_chunk (DOCUMENT_CHUNKS (step p op)).
Proof.
  intros Hp. destruct op as [files | message history |]; simpl.
  - now apply process_pdfs_valid.
  - now rewrite chat_fn_corpus.
  - constructor.
Qed.

(** C7. After any run of [process_pdfs], [chat_fn] and [clear_all] from
    the initial process, every chunk of [DOCUMENT_CHUNKS] (there may be
    none) equals its stripped form and has more than 50 characters. *)
Theorem corpus_invariant (key : option str)
    (post : request -> result response) (ops : list operation) :
  Forall valid_chunk (DOCUMENT_CHUNKS (run (start key post) ops)).
Proof.
  unfold run.
  assert (Hinit : Forall valid_chunk (DOCUMENT_CHUNKS (start key post)))
    by constructor.
  revert Hinit. generalize (start key post).
  induction ops as [|op ops IH]; intros p Hp; simpl; [exact Hp|].
  apply IH. now apply step_valid.
Qed.

(** C9. [clear_all] empties the corpus; a question asked while the
    corpus is empty, whatever ran in between, is answered with the
    "process first" message; that message differs from the "no relevant
    information" message, which answers a question that matches no chunk
    of a non-empty corpus when the API key is set. *)
Theorem clear_all_then_process_first :
  (forall p : process,
      DOCUMENT_CHUNKS (snd (clear_all p)) = [] /\
      fst (clear_all p) = ([], msg_cleared)) /\
  (forall (p : process) (ops : list operation) (message : str)
          (history : option (list chat_message)),
      let p' := run (snd (clear_all p)) ops in
      DOCUMENT_CHUNKS p' = [] ->
      last_reply (fst (chat_fn message history p'))
      = Some (JString msg_process_first)) /\
  msg_process_first <> msg_no_relevant /\
  (forall (p : process) (message : str)
          (history : option (list chat_message)),
      DOCUMENT_CHUNKS p <> [] ->
      truthy_str (GROQ_API_KEY p) = true ->
      retrieve_relevant_chunks (DOCUMENT_CHUNKS p) message default_top_k
      = [] ->
      last_reply (fst (chat_fn message history p))
      = Some (JString msg_no_relevant)).
Proof.
  split; [|split; [|split]].
  - intros p. split; reflexivity.
  - intros p ops message history p' Hp'. unfold chat_fn.
    rewrite Hp'. simpl. now rewrite last_snoc.
  - discriminate.
  - intros p message history Hne Hkey Hr. unfold chat_fn, ask_groq.
    destruct (DOCUMENT_CHUNKS p) as [|c corpus] eqn:Ec; [contradiction|].
    rewrite <- Ec, Hr in *. rewrite Ec at 1. rewrite Hkey. simpl.
    now rewrite last_snoc.
Qed.

(** C10. With [GROQ_API_KEY] unset, [ask_groq] returns the key-not-found
    message and leaves the process as it was: no call to
    [retrieve_relevant_chunks] or to [requests.post] is made, and
    [DOCUMENT_CHUNKS] is unchanged. *)
Theorem ask_groq_without_key (question : str) (p : process) :
  GROQ_API_KEY p = None ->
  ask_groq question p = (Ok (JString msg_key_not_found), p) /\
  calls (snd (ask_groq question p)) = calls p /\
  DOCUMENT_CHUNKS (snd (ask_groq question p)) = DOCUMENT_CHUNKS p.
Proof.
  intros Hkey.
  assert (E : ask_groq question p = (Ok (JString msg_key_not_found), p)).
  { unfold ask_groq. now rewrite Hkey. }
  rewrite E. repeat split.
Qed.

(** With a key, the retrieval is called first. *)
Lemma ask_groq_with_key_retrieves (question : str) (p : process) :
  truthy_str (GROQ_API_KEY p) = true ->
  calls p ++ [CallRetrieve question]
  `prefix_of` calls (snd (ask_groq question p)).
Proof.
  intros Hkey. unfold ask_groq. rewrite Hkey. simpl.
  destruct (negb (truthy_list _)); [reflexivity|].
  match goal with |- context [requests_post ?q ?r] =>
    destruct (requests_post q r) as [resp|] end.
  - destruct (status_code resp =? 200);
      [destruct (choice_content resp)|]; simpl; now apply prefix_app_r.
  - simpl. now apply prefix_app_r.
Qed.

End OperationFacts.

(** C8. [process_pdfs] with a missing or an empty list of files returns
    the "no files uploaded" message and leaves the process, and so
    [DOCUMENT_CHUNKS], as it was. *)
Theorem process_pdfs_no_files (p : process) :
  process_pdfs None p = (Ok msg_no_files, p) /\
  process_pdfs (Some []) p = (Ok msg_no_files, p).
Proof. split; reflexivity. Qed.

Lemma clear_all_then_process_first_witness :
  last_reply (fst (chat_fn (H := ascii_only) (lit "cat") None
                     (run (H := ascii_only) (snd (clear_all sample_process))
                        [ChatFn (lit "dog") None])))
  = Some (JString msg_process_first) /\
  last_reply (fst (chat_fn (H := ascii_only) (lit "zebra") None
                     sample_process))
  = Some (JString msg_no_relevant).
Proof.
  destruct (@clear_all_then_process_first ascii_only)
    as [_ [Hfirst [_ Hnone]]].
  split.
  - apply (Hfirst sample_process [ChatFn (lit "dog") None]). reflexivity.
  - apply (Hnone sample_process).
    + discriminate.
    + reflexivity.
    + vm_compute. reflexivity.
Defined.

Lemma ask_groq_without_key_witness :
  ask_groq (H := ascii_only) (lit "cat") keyless_process
  = (Ok (JString msg_key_not_found), keyless_process).
Proof.
  exact (proj1 (@ask_groq_without_key ascii_only (lit "cat")
                  keyless_process eq_refl)).
Defined.

(** ** Further properties of chunking *)

Lemma strip_length (s : str) : len (strip s) <= len s.
Proof.
  destruct (strip_split s) as [l [t [E _]]]. unfold len.
  rewrite E at 2. rewrite !length_app. lia.
Qed.

Lemma strip_without_space (s : str) :
  Forall (fun c => isspace c = false) s -> strip s = s.
Proof.
  intros Hs. unfold strip, rstrip, lstrip.
  assert (Hd : forall l, Forall (fun c => isspace c = false) l ->
                         drop_while isspace l = l).
  { intros l Hl. destruct Hl as [|c l Hc _]; [reflexivity|].
    now apply drop_while_fixed. }
  rewrite (Hd s Hs), Hd by now apply List.Forall_rev.
  apply rev_involutive.
Qed.

Lemma windows_fuel_length (fuel n : nat) (text : str) :
  Forall (fun w => (length w <= n)%nat /\ (length w <= length text)%nat)
         (windows_fuel fuel n text).
Proof.
  revert text. induction fuel as [|fuel IH]; intros text; [constructor|].
  destruct text as [|c text']; [constructor|].
  set (text := c :: text') in *.
  change (Forall (fun w => (length w <= n)%nat
                           /\ (length w <= length text)%nat)
                 (take n text :: windows_fuel fuel n (drop n text))).
  constructor.
  - rewrite length_take. lia.
  - eapply Forall_impl; [apply IH|]. intros w [H1 H2].
    rewrite length_drop in H2. lia.
Qed.

Lemma kept_length (ws : list str) :
  len (concat (filter long_enough (map strip ws))) <= len (concat ws) /\
  51 * len (filter long_enough (map strip ws))
  <= len (concat (filter long_enough (map strip ws))).
Proof.
  induction ws as [|w ws [IH1 IH2]]; [split; reflexivity|].
  rewrite map_cons, filter_cons.
  pose proof (strip_length w) as Hw.
  destruct (decide (long_enough (strip w))) as [Hl | Hl];
    unfold long_enough, len in *; simpl;
    rewrite ?length_app in *; split; lia.
Qed.

Lemma kept_chunk_lengths (text : str) (chunk_size : Z) :
  0 < chunk_size ->
  Forall (fun chunk => 50 < len chunk <= chunk_size)
         (filter long_enough
            (map strip (windows (Z.to_nat chunk_size) text))).
Proof.
  intros Hcs. apply Forall_forall. intros chunk Hc.
  apply list_elem_of_filter in Hc. destruct Hc as [Hlong Hc].
  apply list_elem_of_fmap in Hc. destruct Hc as [w [-> Hw]].
  split; [exact Hlong|].
  pose proof (windows_fuel_length (length text) (Z.to_nat chunk_size) text)
    as F.
  rewrite Forall_forall in F. destruct (F w Hw) as [Hn _].
  pose proof (strip_length w). unfold len in *. lia.
Qed.

(** X1. For a positive [chunk_size], [chunk_text] returns, and every
    chunk has more than 50 and at most [chunk_size] characters. *)
Theorem chunk_text_chunk_lengths (text : str) (chunk_size : Z) :
  0 < chunk_size ->
  exists chunks,
    chunk_text text chunk_size = Ok chunks /\
    Forall (fun chunk => 50 < len chunk <= chunk_size) chunks.
Proof.
  intros Hcs. eexists. split; [now apply chunk_text_windows|].
  now apply kept_chunk_lengths.
Qed.

Lemma chunk_text_chunk_lengths_witness :
  exists chunks,
    chunk_text dropped_middle_text 400 = Ok chunks /\
    Forall (fun chunk => 50 < len chunk <= 400) chunks.
Proof.
  exact (chunk_text_chunk_lengths dropped_middle_text 400 eq_refl).
Defined.

(** X2. The chunks never hold more characters than the text, and there
    are at most [len(text) / 51] of them. *)
Theorem chunk_text_total_length (text : str) (chunk_size : Z) :
  0 < chunk_size ->
  exists chunks,
    chunk_text text chunk_size = Ok chunks /\
    len (concat chunks) <= len text /\
    51 * len chunks <= len text.
Proof.
  intros Hcs. eexists. split; [now apply chunk_text_windows|].
  pose proof (kept_length (windows (Z.to_nat chunk_size) text)) as [H1 H2].
  rewrite windows_concat in H1 by lia. split; lia.
Qed.

Lemma chunk_text_total_length_witness :
  exists chunks,
    chunk_text dropped_middle_text 400 = Ok chunks /\
    len (concat chunks) <= len dropped_middle_text /\
    51 * len chunks <= len dropped_middle_text.
Proof.
  exact (chunk_text_total_length dropped_middle_text 400 eq_refl).
Defined.

(** X3. A text of at most 50 characters, and any text cut with a
    [chunk_size] of at most 50, gives no chunk at all. *)
Theorem chunk_text_nothing_kept (text : str) (chunk_size : Z) :
  0 < chunk_size ->
  len text <= 50 \/ chunk_size <= 50 ->
  chunk_text text chunk_size = Ok [].
Proof.
  intros Hcs Hsmall. rewrite chunk_text_windows by exact Hcs. f_equal.
  pose proof (kept_chunk_lengths text chunk_size Hcs) as F.
  pose proof (kept_length (windows (Z.to_nat chunk_size) text)) as [H1 H2].
  rewrite windows_concat in H1 by lia.
  destruct (filter long_enough _) as [|chunk chunks]; [reflexivity|].
  inversion F as [|? ? [Hlo Hhi] _]; subst.
  unfold len in *. simpl length in *. lia.
Qed.

Lemma chunk_text_nothing_kept_witness :
  chunk_text (lit "a short page") 400 = Ok [] /\
  chunk_text solid_text 50 = Ok [].
Proof.
  split.
  - apply chunk_text_nothing_kept; [reflexivity | left; now vm_compute].
  - apply chunk_text_nothing_kept; [reflexivity | right; lia].
Defined.

(** X4. [chunk_size = 0] raises [ValueError] ([range] refuses a zero
    step), and a negative [chunk_size] gives no chunk, whatever the
    text. *)
Theorem chunk_text_degenerate_sizes (text : str) (chunk_size : Z) :
  chunk_text text 0 = Raise ValueError /\
  (chunk_size < 0 -> chunk_text text chunk_size = Ok []).
Proof.
  split; [reflexivity|].
  intros Hcs. unfold chunk_text, range, range_length.
  replace (chunk_size =? 0) with false by (symmetry; apply Z.eqb_neq; lia).
  replace (0 <? chunk_size) with false by (symmetry; apply Z.ltb_ge; lia).
  replace (len text <? 0) with false
    by (symmetry; apply Z.ltb_ge; unfold len; lia).
  reflexivity.
Qed.

Lemma chunk_text_degenerate_sizes_witness :
  chunk_text solid_text (-400) = Ok [].
Proof.
  exact (proj2 (chunk_text_degenerate_sizes solid_text (-400)) eq_refl).
Defined.

(** X5. Every chunk is a contiguous part of the text. *)
Theorem chunk_text_chunks_are_parts (text : str) (chunk_size : Z) :
  0 < chunk_size ->
  exists chunks,
    chunk_text text chunk_size = Ok chunks /\
    Forall (fun chunk => exists a b, text = a ++ chunk ++ b) chunks.
Proof.
  intros Hcs. eexists. split; [now apply chunk_text_windows|].
  apply Forall_forall. intros chunk Hc.
  apply list_elem_of_filter in Hc. destruct Hc as [_ Hc].
  apply list_elem_of_fmap in Hc. destruct Hc as [w [-> Hw]].
  apply list_elem_of_split in Hw. destruct Hw as [ws1 [ws2 Ews]].
  destruct (strip_split w) as [l [t [Ew _]]].
  exists (concat ws1 ++ l), (t ++ concat ws2).
  rewrite <- (windows_concat (Z.to_nat chunk_size) text) at 1 by lia.
  rewrite Ews, concat_app. simpl. rewrite Ew at 1.
  now rewrite <- !app_assoc.
Qed.

Lemma chunk_text_chunks_are_parts_witness :
  exists chunks,
    chunk_text dropped_middle_text 400 = Ok chunks /\
    Forall (fun chunk => exists a b, dropped_middle_text = a ++ chunk ++ b)
           chunks.
Proof.
  exact (chunk_text_chunks_are_parts dropped_middle_text 400 eq_refl).
Defined.

Lemma windows_fuel_solid (n : nat) :
  (50 < n)%nat ->
  forall (fuel : nat) (text : str),
    (length text <= fuel)%nat ->
    Forall (fun c => isspace c = false) text ->
    exists tail,
      text = concat (filter long_enough
                       (map strip (windows_fuel fuel n text))) ++ tail /\
      len tail <= 50.
Proof.
  intros Hn. induction fuel as [|fuel IH]; intros text Hf Hs.
  - destruct text; [|simpl in Hf; lia].
    exists []. split; [reflexivity | now vm_compute].
  - destruct text as [|c text'];
      [exists []; split; [reflexivity | now vm_compute]|].
    set (text := c :: text') in *.
    change (windows_fuel (S fuel) n text)
      with (take n text :: windows_fuel fuel n (drop n text)).
    assert (Hw : strip (take n text) = take n text).
    { apply strip_without_space. now apply Forall_take. }
    rewrite map_cons, Hw, filter_cons.
    destruct (IH (drop n text)) as [tail [Et Ht]].
    { rewrite length_drop. subst text. simpl in *. lia. }
    { now apply Forall_drop. }
    destruct (decide (long_enough (take n text))) as [Hl | Hl].
    + exists tail. split; [|exact Ht]. simpl.
      rewrite <- app_assoc, <- Et. symmetry. apply take_drop.
    + unfold long_enough, len in Hl. rewrite length_take in Hl.
      assert (Hshort : (length text <= 50)%nat) by lia.
      exists text. split; [|unfold len; lia].
      rewrite drop_ge by lia.
      destruct fuel; reflexivity.
Qed.

(** X6. When the text holds no whitespace and [chunk_size] exceeds 50,
    the chunks concatenated are the text up to a last fragment of at most
    50 characters. *)
Theorem chunk_text_solid_text (text : str) (chunk_size : Z) :
  50 < chunk_size ->
  Forall (fun c => isspace c = false) text ->
  exists chunks tail,
    chunk_text text chunk_size = Ok chunks /\
    text = concat chunks ++ tail /\
    len tail <= 50.
Proof.
  intros Hcs Hs.
  destruct (windows_fuel_solid (Z.to_nat chunk_size) ltac:(lia)
              (length text) text (le_n _) Hs) as [tail [E Ht]].
  eexists. exists tail. split; [apply chunk_text_windows; lia|].
  split; [exact E | exact Ht].
Qed.

Lemma chunk_text_solid_text_witness :
  exists chunks tail,
    chunk_text solid_text 60 = Ok chunks /\
    solid_text = concat chunks ++ tail /\
    len tail <= 50.
Proof.
  apply chunk_text_solid_text; [reflexivity|].
  apply Forall_forall. intros c Hc.
  apply elem_of_replicate in Hc. destruct Hc as [-> _]. reflexivity.
Defined.

(** ** Extraction *)

Lemma add_pages (text : str) (pages : list str) :
  foldl add_page text pages
  = text ++ concat (map page_line (filter (fun pg => pg <> []) pages)).
Proof.
  revert text. induction pages as [|pg pages IH]; intros text.
  - simpl. now rewrite app_nil_r.
  - change (foldl add_page text (pg :: pages))
      with (foldl add_page (add_page text pg) pages).
    rewrite IH. unfold add_page.
    destruct pg as [|c pg].
    + rewrite filter_cons_False by (intros E; now apply E). reflexivity.
    + rewrite filter_cons_True by discriminate.
      rewrite map_cons. simpl truthy_list. cbv iota. simpl concat.
      unfold page_line. now rewrite <- !app_assoc.
Qed.

Lemma extract_text_from_readable (text : str) (files : list upload) :
  Forall readable files ->
  extract_text_from text files
  = Ok (text ++ concat (map page_line
                          (filter (fun pg => pg <> [])
                                  (concat (map pages_of files))))).
Proof.
  intros F. revert text. induction F as [|f files [pages Ef] _ IH];
    intros text; simpl.
  - now rewrite app_nil_r.
  - unfold pages_of at 1. rewrite Ef, IH, add_pages.
    rewrite filter_app, map_app, concat_app, <- app_assoc. reflexivity.
Qed.

(** X7. When every file is readable, the extracted text is, file after
    file and page after page, each non-empty page text followed by a line
    feed; empty page texts leave no trace. *)
Theorem extract_text_from_pdfs_readable (files : list upload) :
  Forall readable files ->
  extract_text_from_pdfs files
  = Ok (concat (map page_line
                  (filter (fun pg => pg <> [])
                          (concat (map pages_of files))))).
Proof. intros F. apply (extract_text_from_readable [] files F). Qed.

Lemma extract_text_from_pdfs_readable_witness :
  extract_text_from_pdfs [two_page_file; one_page_file]
  = Ok (lit "first page" ++ [0x0A%N] ++ lit "third page" ++ [0x0A%N]
        ++ lit "other file" ++ [0x0A%N]).
Proof.
  apply (extract_text_from_pdfs_readable [two_page_file; one_page_file]).
  repeat constructor; eexists; reflexivity.
Defined.

(** X8. The first file that [PdfReader] refuses makes the extraction
    raise that file's exception, whatever follows it. *)
Theorem extract_text_from_pdfs_unreadable (good rest : list upload)
    (bad : upload) (e : exn) :
  Forall readable good ->
  reader_pages bad = Raise e ->
  extract_text_from_pdfs (good ++ bad :: rest) = Raise e.
Proof.
  intros F Eb. unfold extract_text_from_pdfs. generalize (@nil N).
  induction F as [|f good [pages Ef] _ IH]; intros text; simpl.
  - now rewrite Eb.
  - rewrite Ef. apply IH.
Qed.

Lemma extract_text_from_pdfs_unreadable_witness :
  extract_text_from_pdfs ([two_page_file] ++ broken_file :: [one_page_file])
  = Raise PdfReadError.
Proof.
  apply (extract_text_from_pdfs_unreadable [two_page_file] [one_page_file]
           broken_file PdfReadError).
  - repeat constructor; eexists; reflexivity.
  - reflexivity.
Defined.

(** ** Further properties of normalisation *)

Lemma ascii_separator_not_alnum (c : N) :
  ascii_alnum c = false -> alnum c = false.
Proof.
  unfold ascii_alnum, alnum. intros Hc.
  destruct ((0x61 <=? c) && (c <=? 0x7A))%N;
    [now rewrite orb_true_r in Hc|].
  destruct ((0x30 <=? c) && (c <=? 0x39))%N; [|reflexivity].
  now rewrite orb_true_r in Hc.
Qed.

Section NormalizeMore.
Context `{UnicodeData}.

Lemma normalize_one_ascii_lower (c : N) :
  normalize_one (ascii_lower c) = normalize_one c.
Proof.
  unfold ascii_lower.
  destruct ((0x41 <=? c) && (c <=? 0x5A))%N eqn:E; [|reflexivity].
  bool_to_prop E. unfold normalize_one, to_lower_full, ascii_lower.
  replace (c =? 0x3A3)%N with false by (symmetry; apply N.eqb_neq; lia).
  replace (c + 32 =? 0x3A3)%N with false
    by (symmetry; apply N.eqb_neq; lia).
  replace (c <? 128)%N with true by (symmetry; apply N.ltb_lt; lia).
  replace (c + 32 <? 128)%N with true by (symmetry; apply N.ltb_lt; lia).
  replace ((0x41 <=? c) && (c <=? 0x5A))%N with true
    by (symmetry; apply andb_true_iff; rewrite !N.leb_le; lia).
  replace ((0x41 <=? c + 32) && (c + 32 <=? 0x5A))%N with false
    by (symmetry; apply andb_false_iff; rewrite !N.leb_gt; lia).
  reflexivity.
Qed.

Lemma normalize_ascii_lower (text : str) :
  normalize (map ascii_lower text) = normalize text.
Proof.
  rewrite !normalize_flat_map.
  induction text as [|c text IH]; [reflexivity|].
  simpl. now rewrite IH, normalize_one_ascii_lower.
Qed.

Lemma clean_words_same_up_to_case (a b : str) :
  map ascii_lower a = map ascii_lower b -> clean_words a = clean_words b.
Proof.
  intros E. rewrite !clean_words_split.
  now rewrite <- (normalize_ascii_lower a), E, normalize_ascii_lower.
Qed.

Lemma normalize_one_separator (c : N) :
  ascii_separator c -> exists r, normalize_one c = [r] /\ isspace r = true.
Proof.
  intros [Hc Ha]. unfold normalize_one, to_lower_full, ascii_lower.
  replace (c =? 0x3A3)%N with false by (symmetry; apply N.eqb_neq; lia).
  replace (c <? 128)%N with true by (symmetry; now apply N.ltb_lt).
  assert (E : ((0x41 <=? c) && (c <=? 0x5A))%N = false).
  { unfold ascii_alnum in Ha.
    destruct ((0x41 <=? c) && (c <=? 0x5A))%N; [discriminate | reflexivity]. }
  rewrite E. simpl. eexists. split; [reflexivity|].
  unfold replace_outside_class, in_class_a_z_0_9_s. fold (alnum c).
  rewrite (ascii_separator_not_alnum c Ha). simpl.
  destruct (isspace c) eqn:Hs; [exact Hs | reflexivity].
Qed.

Lemma clean_words_separated (a b : str) (c : N) :
  ascii_separator c ->
  clean_words (a ++ c :: b) = clean_words a ∪ clean_words b.
Proof.
  intros Hc. rewrite !clean_words_split.
  change (a ++ c :: b) with (a ++ [c] ++ b).
  rewrite !normalize_app, (normalize_flat_map [c]). simpl.
  destruct (normalize_one_separator c Hc) as [r [-> Hr]]. simpl.
  unfold split at 1. rewrite split_from_space by exact Hr.
  apply list_to_set_app_L.
Qed.

Lemma clean_words_nil : clean_words [] = ∅.
Proof. reflexivity. Qed.

Lemma clean_words_separators (text : str) :
  Forall ascii_separator text -> clean_words text = ∅.
Proof.
  induction 1 as [|c text Hc _ IH]; [reflexivity|].
  change (c :: text) with ([] ++ c :: text).
  rewrite clean_words_separated by exact Hc.
  rewrite IH, clean_words_nil. apply (left_id_L ∅ (∪)).
Qed.

(** X9. Every element of [clean_words(text)] is a non-empty string of
    the characters [a-z] and [0-9]. *)
Theorem clean_words_lowercase_alnum (text w : str) :
  w ∈ clean_words text ->
  w <> [] /\ Forall (fun c => alnum c = true) w.
Proof. apply clean_words_are_words. Qed.

(** X10. Texts that differ only in the case of ASCII letters have the
    same word set. *)
Theorem clean_words_ignores_ascii_case (a b : str) :
  map ascii_lower a = map ascii_lower b -> clean_words a = clean_words b.
Proof. apply clean_words_same_up_to_case. Qed.

(** X11. An ASCII character that is neither a letter nor a digit
    separates words: the word set of [a + c + b] is the union of the word
    sets of [a] and of [b]. *)
Theorem clean_words_union_across_separator (a b : str) (c : N) :
  ascii_separator c ->
  clean_words (a ++ c :: b) = clean_words a ∪ clean_words b.
Proof. apply clean_words_separated. Qed.

(** X12. A text made of ASCII punctuation, controls and whitespace only
    (the empty text included) has the empty word set, and as a query it
    retrieves nothing. *)
Theorem clean_words_no_words (text : str) (corpus : list str) (top_k : Z) :
  Forall ascii_separator text ->
  clean_words text = ∅ /\
  retrieve_relevant_chunks corpus text top_k = [].
Proof.
  intros F. pose proof (clean_words_separators text F) as E.
  split; [exact E|].
  unfold retrieve_relevant_chunks. now rewrite E, size_empty.
Qed.

End NormalizeMore.

Lemma clean_words_lowercase_alnum_witness :
  lit "k9" <> [] /\ Forall (fun c => alnum c = true) (lit "k9").
Proof.
  apply (@clean_words_lowercase_alnum unicode_fragment kelvin_text).
  apply elem_of_list_to_set. vm_compute. apply list_elem_of_here.
Defined.

Lemma clean_words_ignores_ascii_case_witness :
  clean_words (H := ascii_only) (lit "The CAT sat")
  = clean_words (H := ascii_only) (lit "tHE cat SAT").
Proof.
  apply (@clean_words_ignores_ascii_case ascii_only). reflexivity.
Defined.

Lemma clean_words_union_across_separator_witness :
  clean_words (H := ascii_only) (lit "cat" ++ 0x2C%N :: lit "dog")
  = clean_words (H := ascii_only) (lit "cat")
    ∪ clean_words (H := ascii_only) (lit "dog").
Proof.
  apply (@clean_words_union_across_separator ascii_only).
  split; [reflexivity | reflexivity].
Defined.

Lemma clean_words_no_words_witness :
  clean_words (H := ascii_only) (lit "?! ... --") = ∅ /\
  retrieve_relevant_chunks (H := ascii_only) pets_corpus (lit "?! ... --") 3
  = [].
Proof.
  apply (@clean_words_no_words ascii_only).
  repeat constructor.
Defined.

(** ** Further properties of retrieval *)

Section RetrievalMore.
Context `{UnicodeData}.

Lemma no_query_words_nothing_relevant (query_words : gset str)
    (corpus : list str) :
  size query_words = 0%nat -> filter (relevant query_words) corpus = [].
Proof.
  intros E. induction corpus as [|c corpus IH]; [reflexivity|].
  rewrite filter_cons_False; [exact IH|].
  unfold relevant, overlap_score.
  pose proof (subseteq_size (query_words ∩ clean_words c) query_words
                (intersection_subseteq_l _ _)).
  lia.
Qed.

(** The returned chunks are a prefix, cut by [top_k], of the relevant
    chunks sorted; for a query without words there is no relevant chunk. *)
Lemma retrieve_take (corpus : list str) (query : str) (top_k : Z) :
  let sorted := list_sort (overlap_score (clean_words query)) true
                  (filter (relevant (clean_words query)) corpus) in
  retrieve_relevant_chunks corpus query top_k
  = take (Z.to_nat (slice_bound (len sorted) top_k)) sorted.
Proof.
  intros sorted. rewrite retrieve_closed_form.
  destruct (size (clean_words query) =? 0)%nat eqn:E.
  - apply Nat.eqb_eq in E. subst sorted.
    rewrite no_query_words_nothing_relevant by exact E.
    symmetry. apply take_nil.
  - apply slice_to_take.
Qed.

(** X13. With a non-negative [top_k], the number of returned chunks is
    the smaller of [top_k] and the number of chunks of the corpus that
    share a word with the query. *)
Theorem retrieve_relevant_chunks_count (corpus : list str) (query : str)
    (top_k : Z) :
  0 <= top_k ->
  length (retrieve_relevant_chunks corpus query top_k)
  = Nat.min (Z.to_nat top_k)
            (length (filter (relevant (clean_words query)) corpus)).
Proof.
  intros Hk. rewrite retrieve_take, length_take.
  rewrite (Permutation_length (list_sort_reverse_perm _ _)).
  unfold slice_bound, len.
  rewrite (Permutation_length (list_sort_reverse_perm _ _)).
  destruct (top_k <? 0) eqn:E; [apply Z.ltb_lt in E; lia|]. lia.
Qed.

(** X14. The returned chunks are the best ones: together with the
    chunks left out they make up the relevant chunks of the corpus, and no
    chunk left out has a higher overlap count than a returned one. *)
Theorem retrieve_relevant_chunks_best (corpus : list str) (query : str)
    (top_k : Z) :
  let query_words := clean_words query in
  let found := retrieve_relevant_chunks corpus query top_k in
  exists rest,
    found ++ rest ≡ₚ filter (relevant query_words) corpus /\
    Forall (fun kept =>
              Forall (fun left_out =>
                        (overlap_score query_words left_out
                         <= overlap_score query_words kept)%nat) rest)
           found.
Proof.
  intros query_words found. subst found. rewrite retrieve_take.
  fold query_words.
  set (sorted := list_sort (overlap_score query_words) true
                   (filter (relevant query_words) corpus)).
  set (n := Z.to_nat (slice_bound (len sorted) top_k)).
  exists (drop n sorted). split.
  - rewrite take_drop. apply list_sort_reverse_perm.
  - pose proof (list_sort_reverse_sorted (overlap_score query_words)
                  (filter (relevant query_words) corpus)) as S.
    fold sorted in S. rewrite <- (take_drop n sorted) in S.
    apply Forall_forall. intros a Ha. apply Forall_forall. intros b Hb.
    exact (StronglySorted_app_1_elem_of _ _ _ a b S Ha Hb).
Qed.

(** X15. Chunks that share no word with the query play no part: the
    corpus without them gives the same answer. *)
Theorem retrieve_relevant_chunks_ignores_irrelevant (corpus : list str)
    (query : str) (top_k : Z) :
  retrieve_relevant_chunks
    (filter (relevant (clean_words query)) corpus) query top_k
  = retrieve_relevant_chunks corpus query top_k.
Proof.
  rewrite !retrieve_closed_form.
  destruct (size (clean_words query) =? 0)%nat; [reflexivity|].
  rewrite list_filter_filter.
  erewrite (list_filter_iff _ (relevant (clean_words query)));
    [reflexivity|].
  intros c. tauto.
Qed.

(** X16. Raising [top_k] only adds chunks at the end: the answer for a
    smaller non-negative [top_k] is a prefix of the answer for a larger
    one. *)
Theorem retrieve_relevant_chunks_grows (corpus : list str) (query : str)
    (k1 k2 : Z) :
  0 <= k1 <= k2 ->
  retrieve_relevant_chunks corpus query k1
  `prefix_of` retrieve_relevant_chunks corpus query k2.
Proof.
  intros [H1 H2]. rewrite !retrieve_take.
  set (sorted := list_sort _ true _).
  set (n1 := Z.to_nat (slice_bound (len sorted) k1)).
  set (n2 := Z.to_nat (slice_bound (len sorted) k2)).
  assert (Hn : (n1 <= n2)%nat).
  { subst n1 n2. unfold slice_bound.
    destruct (k1 <? 0) eqn:E1; [apply Z.ltb_lt in E1; lia|].
    destruct (k2 <? 0) eqn:E2; [apply Z.ltb_lt in E2; lia|]. lia. }
  exists (take (n2 - n1) (drop n1 sorted)).
  rewrite <- (take_drop n1 sorted) at 1.
  rewrite take_app, length_take.
  destruct (le_lt_dec (length sorted) n1) as [Hl | Hl].
  - rewrite (take_ge sorted n1) by exact Hl.
    rewrite (take_ge sorted n2) by lia.
    rewrite drop_ge by exact Hl. rewrite !take_nil. reflexivity.
  - rewrite (take_ge (take n1 sorted)) by (rewrite length_take; lia).
    do 2 f_equal. lia.
Qed.

(** X17. Queries that differ only in the case of ASCII letters
    retrieve the same chunks. *)
Theorem retrieve_relevant_chunks_ignores_query_case (corpus : list str)
    (q1 q2 : str) (top_k : Z) :
  map ascii_lower q1 = map ascii_lower q2 ->
  retrieve_relevant_chunks corpus q1 top_k
  = retrieve_relevant_chunks corpus q2 top_k.
Proof.
  intros E. unfold retrieve_relevant_chunks.
  now rewrite (clean_words_same_up_to_case q1 q2 E).
Qed.

(** X18. The overlap count of a chunk never exceeds the number of
    distinct words of the query, and a chunk that holds the query between
    spaces reaches it. *)
Theorem overlap_score_bounds (query chunk before after : str) :
  (overlap_score (clean_words query) chunk <= size (clean_words query))%nat
  /\ overlap_score (clean_words query)
       (before ++ lit " " ++ query ++ lit " " ++ after)
     = size (clean_words query).
Proof.
  split.
  - apply subseteq_size, intersection_subseteq_l.
  - unfold overlap_score. change (lit " ") with [0x20%N].
    change (before ++ [32%N] ++ query ++ [32%N] ++ after)
      with (before ++ 32%N :: (query ++ 32%N :: after)).
    rewrite !clean_words_separated by (split; reflexivity).
    f_equal. apply set_eq. intros w.
    rewrite elem_of_intersection, !elem_of_union. tauto.
Qed.

End RetrievalMore.

Lemma retrieve_relevant_chunks_count_witness :
  length (retrieve_relevant_chunks (H := ascii_only) pets_corpus
            (lit "cat dogs") 2)
  = Nat.min 2
      (length (filter (relevant (H := ascii_only)
                         (clean_words (H := ascii_only) (lit "cat dogs")))
                      pets_corpus)).
Proof.
  apply (@retrieve_relevant_chunks_count ascii_only pets_corpus
           (lit "cat dogs") 2).
  lia.
Defined.

Lemma retrieve_relevant_chunks_grows_witness :
  retrieve_relevant_chunks (H := ascii_only) pets_corpus (lit "cat dogs") 1
  `prefix_of`
  retrieve_relevant_chunks (H := ascii_only) pets_corpus (lit "cat dogs") 3.
Proof.
  apply (@retrieve_relevant_chunks_grows ascii_only). lia.
Defined.

Lemma retrieve_relevant_chunks_ignores_query_case_witness :
  retrieve_relevant_chunks (H := ascii_only) pets_corpus (lit "CAT Dogs") 3
  = retrieve_relevant_chunks (H := ascii_only) pets_corpus (lit "cat dogs") 3.
Proof.
  apply (@retrieve_relevant_chunks_ignores_query_case ascii_only).
  reflexivity.
Defined.

(** ** Further properties of the operations *)

Lemma record_call_same_globals (c : call) (p : process) :
  same_globals p (record_call c p).
Proof. repeat split. Qed.

Lemma chunk_text_default_returns (text : str) :
  chunk_text text default_chunk_size
  = Ok (filter long_enough (map strip (windows 400 text))).
Proof. apply (chunk_text_windows text 400). reflexivity. Qed.

Lemma extract_text_from_raises (text : str) (files : list upload) (e : exn) :
  extract_text_from text files = Raise e ->
  exists f, f ∈ files /\ reader_pages f = Raise e.
Proof.
  revert text. induction files as [|f files IH]; intros text; simpl.
  - discriminate.
  - destruct (reader_pages f) as [pages|e'] eqn:Ef.
    + intros E. destruct (IH _ E) as [g [Hg Eg]].
      exists g. split; [now apply list_elem_of_further | exact Eg].
    + intros E. injection E as ->. exists f.
      split; [apply list_elem_of_here | exact Ef].
Qed.

Section OperationsMore.
Context `{UnicodeData}.

(** X19. What [ask_groq] calls: nothing without a key; the retrieval
    alone when no chunk matches; otherwise the retrieval and then one
    request, sent to [GROQ_URL] for [MODEL], whose context message holds
    the retrieved chunks and whose last message is the question.  Key,
    corpus and service are left as they were. *)
Theorem ask_groq_calls (question : str) (p : process) :
  let found :=
    retrieve_relevant_chunks (DOCUMENT_CHUNKS p) question default_top_k in
  let p' := snd (ask_groq question p) in
  same_globals p p' /\
  match truthy_str (GROQ_API_KEY p), found with
  | false, _ => calls p' = calls p
  | true, [] => calls p' = calls p ++ [CallRetrieve question]
  | true, _ :: _ =>
      exists req,
        calls p' = calls p ++ [CallRetrieve question; CallPost req] /\
        url req = GROQ_URL /\
        model (json req) = MODEL /\
        messages (json req) !! 1%nat
        = Some {| role := lit "system";
                  content := JString (lit "Document Context:
" ++ join (lit "

") found) |} /\
        last (messages (json req))
        = Some {| role := lit "user"; content := JString question |}
  end.
Proof.
  intros found p'. subst p'. unfold ask_groq. fold found.
  destruct (truthy_str (GROQ_API_KEY p)) eqn:Hkey; simpl negb; cbv iota.
  2:{ split; [repeat split | reflexivity]. }
  destruct found as [|c found'] eqn:Ef; simpl truthy_list; simpl negb;
    cbv iota.
  { split; [repeat split | reflexivity]. }
  match goal with |- context [requests_post _ ?r] => set (req := r) end.
  set (q0 := record_call (CallPost req)
               (record_call (CallRetrieve question) p)).
  assert (Hshape :
    forall out : result json_value,
      same_globals p (snd (out, q0)) /\
      exists r, calls (snd (out, q0))
                = calls p ++ [CallRetrieve question; CallPost r] /\
                url r = GROQ_URL /\ model (json r) = MODEL /\
                messages (json r) !! 1%nat
                = Some {| role := lit "system";
                          content := JString (lit "Document Context:
" ++ join (lit "

") (c :: found')) |} /\
                last (messages (json r))
                = Some {| role := lit "user";
                          content := JString question |}).
  { intros out. split; [repeat split|]. exists req. simpl.
    rewrite <- app_assoc. repeat split. }
  destruct (requests_post q0 req) as [resp|e]; [|apply Hshape].
  destruct (status_code resp =? 200); [|apply Hshape].
  destruct (choice_content resp); apply Hshape.
Qed.

(** X20. What [ask_groq] answers: one of its three fixed messages, or
    the content value found in a body of status 200, a string or not
    ([null] included).  It raises only what [requests.post] raised, or
    for a body of status 200 that has no such content path. *)
Theorem ask_groq_reply (question : str) (p : process) :
  match fst (ask_groq question p) with
  | Ok reply =>
      reply = JString msg_key_not_found \/
      reply = JString msg_no_relevant \/
      reply = JString msg_groq_error \/
      exists req,
        requests_post p req
        = Ok {| status_code := 200; choice_content := Some reply |}
  | Raise e =>
      exists req,
        requests_post p req = Raise e \/
        (e = BadResponseBody /\
         requests_post p req
         = Ok {| status_code := 200; choice_content := None |})
  end.
Proof.
  unfold ask_groq.
  destruct (negb (truthy_str (GROQ_API_KEY p))); [simpl; auto|].
  destruct (negb (truthy_list _)); [simpl; auto|].
  match goal with |- context [requests_post ?q ?r] =>
    change (requests_post q r) with (requests_post p r);
    set (req := r) end.
  destruct (requests_post p req) as [[code body]|e] eqn:E; simpl.
  - destruct (code =? 200) eqn:Ec; simpl; [|auto].
    apply Z.eqb_eq in Ec. subst code.
    destruct body as [answer|]; simpl.
    + right. right. right. exists req. exact E.
    + exists req. right. split; [reflexivity | exact E].
  - exists req. left. exact E.
Qed.

End OperationsMore.

Lemma set_DOCUMENT_CHUNKS_twice (a b : list str) (p : process) :
  set_DOCUMENT_CHUNKS a (set_DOCUMENT_CHUNKS b p) = set_DOCUMENT_CHUNKS a p.
Proof. reflexivity. Qed.

(** X21. When [process_pdfs] raises, the process is left as it was, and
    the exception is the one [PdfReader] raised for one of the files. *)
Theorem process_pdfs_failure (files : option (list upload)) (p : process)
    (e : exn) :
  fst (process_pdfs files p) = Raise e ->
  snd (process_pdfs files p) = p /\
  exists fs f, files = Some fs /\ f ∈ fs /\ reader_pages f = Raise e.
Proof.
  unfold process_pdfs.
  destruct files as [[|f0 fs]|]; try (simpl; discriminate).
  cbn [negb truthy_opt_list].
  change (default [] (Some (f0 :: fs))) with (f0 :: fs).
  unfold extract_text_from_pdfs.
  destruct (extract_text_from [] (f0 :: fs)) as [text|e'] eqn:E.
  - rewrite chunk_text_default_returns. cbn [fst]. discriminate.
  - cbn [fst snd]. intros E'. injection E' as ->. split; [reflexivity|].
    destruct (extract_text_from_raises _ _ _ E) as [f [Hf Ef]].
    exists (f0 :: fs), f. auto.
Qed.

Lemma process_pdfs_failure_witness :
  snd (process_pdfs (Some [two_page_file; broken_file]) sample_process)
  = sample_process /\
  exists fs f,
    Some [two_page_file; broken_file] = Some fs /\ f ∈ fs /\
    reader_pages f = Raise PdfReadError.
Proof.
  apply (process_pdfs_failure (Some [two_page_file; broken_file])
           sample_process PdfReadError).
  reflexivity.
Defined.

(** X22. Processing the same files a second time changes nothing: same
    outcome, same process. *)
Theorem process_pdfs_idempotent (files : option (list upload))
    (p : process) :
  process_pdfs files (snd (process_pdfs files p)) = process_pdfs files p.
Proof.
  unfold process_pdfs.
  destruct (negb (truthy_opt_list files)); [reflexivity|].
  destruct (extract_text_from_pdfs (default [] files)) as [text|e];
    [|reflexivity].
  destruct (chunk_text text default_chunk_size) as [chunks|e];
    reflexivity.
Qed.

(** X23. With at least one file and every file readable, [process_pdfs]
    succeeds: the corpus becomes the chunks of the extracted text,
    whatever it held before, the rest of the process is kept, and the
    message counts the files and the chunks. *)
Theorem process_pdfs_replaces_corpus (f : upload) (fs : list upload)
    (p : process) :
  Forall readable (f :: fs) ->
  exists text chunks,
    extract_text_from_pdfs (f :: fs) = Ok text /\
    chunk_text text default_chunk_size = Ok chunks /\
    process_pdfs (Some (f :: fs)) p
    = (Ok (msg_processed (S (length fs)) (length chunks)),
       set_DOCUMENT_CHUNKS chunks p).
Proof.
  intros F. unfold process_pdfs. simpl negb. cbv iota. simpl default.
  unfold extract_text_from_pdfs.
  rewrite (extract_text_from_readable [] (f :: fs) F), app_nil_l.
  eexists. eexists. split; [reflexivity|].
  rewrite chunk_text_default_returns. split; reflexivity.
Qed.

Lemma process_pdfs_replaces_corpus_witness :
  exists text chunks,
    extract_text_from_pdfs [two_page_file; one_page_file] = Ok text /\
    chunk_text text default_chunk_size = Ok chunks /\
    process_pdfs (Some [two_page_file; one_page_file]) sample_process
    = (Ok (msg_processed 2 (length chunks)),
       set_DOCUMENT_CHUNKS chunks sample_process).
Proof.
  apply (process_pdfs_replaces_corpus two_page_file [one_page_file]
           sample_process).
  repeat constructor; eexists; reflexivity.
Defined.

Section OperationsLast.
Context `{UnicodeData}.

(** X24. Files whose pages carry no text are processed without error,
    but the corpus is then empty, and the next question is answered with
    the "process first" message. *)
Theorem process_pdfs_textless (f : upload) (fs : list upload) (p : process)
    (message : str) (history : option (list chat_message)) :
  Forall readable (f :: fs) ->
  Forall (fun pg => pg = []) (concat (map pages_of (f :: fs))) ->
  process_pdfs (Some (f :: fs)) p
  = (Ok (msg_processed (S (length fs)) 0), set_DOCUMENT_CHUNKS [] p) /\
  last_reply (fst (chat_fn message history
                     (snd (process_pdfs (Some (f :: fs)) p))))
  = Some (JString msg_process_first).
Proof.
  intros F Hempty.
  assert (E : process_pdfs (Some (f :: fs)) p
              = (Ok (msg_processed (S (length fs)) 0),
                 set_DOCUMENT_CHUNKS [] p)).
  { unfold process_pdfs. simpl negb. cbv iota. simpl default.
    unfold extract_text_from_pdfs.
    rewrite (extract_text_from_readable [] (f :: fs) F), app_nil_l.
    replace (filter (fun pg : str => pg <> [])
               (concat (map pages_of (f :: fs)))) with (@nil str).
    - reflexivity.
    - symmetry. induction Hempty as [|pg pgs Hpg _ IH]; [reflexivity|].
      rewrite filter_cons_False by (intros E; now apply E). exact IH. }
  rewrite E. split; [reflexivity|].
  unfold chat_fn. simpl. now rewrite last_snoc.
Qed.

(** X25. On an empty corpus [chat_fn] returns the transcript it was
    given (none counts as empty) followed by the question and the
    "process first" reply, with an empty question box.  On a non-empty
    corpus it returns the same with the reply of [ask_groq] when
    [ask_groq] returns, and raises the exception of [ask_groq] when
    [ask_groq] raises: it raises exactly then. *)
Theorem chat_fn_transcript (message : str)
    (history : option (list chat_message)) (p : process) :
  let asked :=
    default [] history
    ++ [ {| role := lit "user"; content := JString message |} ] in
  (DOCUMENT_CHUNKS p = [] ->
   fst (chat_fn message history p)
   = Ok (asked ++ [ {| role := lit "assistant";
                       content := JString msg_process_first |} ], [])) /\
  (DOCUMENT_CHUNKS p <> [] ->
   fst (chat_fn message history p)
   = match fst (ask_groq message p) with
     | Ok reply =>
         Ok (asked ++ [ {| role := lit "assistant"; content := reply |} ],
             [])
     | Raise e => Raise e
     end).
Proof.
  intros asked. subst asked.
  assert (Hh : (if truthy_opt_list history then default [] history else [])
               = default [] history).
  { destruct history as [[|m h]|]; reflexivity. }
  unfold chat_fn. rewrite Hh. split.
  - intros ->. reflexivity.
  - intros Hne. destruct (DOCUMENT_CHUNKS p) as [|c corpus];
      [contradiction|]. simpl.
    destruct (ask_groq message p) as [[reply|e] p']; reflexivity.
Qed.

Lemma ask_groq_frame (question : str) (p : process) :
  same_globals p (snd (ask_groq question p)) /\
  calls p `prefix_of` calls (snd (ask_groq question p)).
Proof.
  unfold ask_groq.
  destruct (negb (truthy_str (GROQ_API_KEY p)));
    [split; [repeat split | reflexivity]|].
  destruct (negb (truthy_list _)).
  { split; [repeat split | now apply prefix_app_r]. }
  match goal with |- context [requests_post _ ?r] => set (req := r) end.
  set (q0 := record_call (CallPost req)
               (record_call (CallRetrieve question) p)).
  assert (Hq : forall out : result json_value,
             same_globals p (snd (out, q0)) /\
             calls p `prefix_of` calls (snd (out, q0))).
  { intros out. split; [repeat split|]. simpl. rewrite <- app_assoc.
    now apply prefix_app_r. }
  destruct (requests_post q0 req) as [resp|e]; [|apply Hq].
  destruct (status_code resp =? 200); [|apply Hq].
  destruct (choice_content resp); apply Hq.
Qed.

Lemma step_frame (p : process) (op : operation) :
  GROQ_API_KEY (step p op) = GROQ_API_KEY p /\
  requests_post (step p op) = requests_post p /\
  calls p `prefix_of` calls (step p op) /\
  (is_chat op -> DOCUMENT_CHUNKS (step p op) = DOCUMENT_CHUNKS p).
Proof.
  destruct op as [files | message history |]; simpl.
  - assert (E : snd (process_pdfs files p) = p
                \/ exists chunks,
                     snd (process_pdfs files p)
                     = set_DOCUMENT_CHUNKS chunks p).
    { unfold process_pdfs.
      destruct (negb (truthy_opt_list files)); [now left|].
      destruct (extract_text_from_pdfs _); [|now left].
      destruct (chunk_text _ _) as [chunks|]; [|now left].
      right. now exists chunks. }
    destruct E as [-> | [chunks ->]]; repeat split;
      first [reflexivity | intros []].
  - unfold chat_fn.
    destruct (negb (truthy_list (DOCUMENT_CHUNKS p))).
    { repeat split; reflexivity. }
    pose proof (ask_groq_frame message p) as [[Hk [Hc Hp]] Hpre].
    destruct (ask_groq message p) as [[reply|e] p']; simpl in *;
      repeat split; first [assumption | intros _; assumption].
  - repeat split; first [reflexivity | intros []].
Qed.

(** X26. No run of operations changes the API key or the service, and
    the log of calls only grows; a run of questions alone leaves the corpus
    as it was. *)
Theorem run_frame (p : process) (ops : list operation) :
  GROQ_API_KEY (run p ops) = GROQ_API_KEY p /\
  requests_post (run p ops) = requests_post p /\
  calls p `prefix_of` calls (run p ops) /\
  (Forall is_chat ops -> DOCUMENT_CHUNKS (run p ops) = DOCUMENT_CHUNKS p).
Proof.
  unfold run. revert p. induction ops as [|op ops IH]; intros p.
  - repeat split; reflexivity.
  - change (foldl step p (op :: ops)) with (foldl step (step p op) ops).
    destruct (IH (step p op)) as [Hk [Hp [Hc Hd]]].
    destruct (step_frame p op) as [Hk' [Hp' [Hc' Hd']]].
    repeat split.
    + congruence.
    + congruence.
    + etransitivity; eassumption.
    + intros F. inversion F as [|? ? Hop Hops]; subst.
      rewrite (Hd Hops). now apply Hd'.
Qed.

End OperationsLast.

Lemma process_pdfs_textless_witness :
  process_pdfs (Some [textless_file]) sample_process
  = (Ok (msg_processed 1 0), set_DOCUMENT_CHUNKS [] sample_process) /\
  last_reply (fst (chat_fn (H := ascii_only) (lit "cat") None
                     (snd (process_pdfs (Some [textless_file])
                             sample_process))))
  = Some (JString msg_process_first).
Proof.
  apply (@process_pdfs_textless ascii_only textless_file [] sample_process).
  - repeat constructor; eexists; reflexivity.
  - repeat constructor.
Defined.

(** A body of status 200 whose content is [null] is returned as it is. *)
Example ask_groq_null_content :
  fst (ask_groq (H := ascii_only) (lit "cat") null_content_process)
  = Ok JNull.
Proof. vm_compute. reflexivity. Qed.

Lemma chat_fn_transcript_witness :
  fst (chat_fn (H := ascii_only) (lit "cat") None
         (start None (fun _ => Raise RequestException)))
  = Ok ([ {| role := lit "user"; content := JString (lit "cat") |};
          {| role := lit "assistant";
             content := JString msg_process_first |} ], []) /\
  fst (chat_fn (H := ascii_only) (lit "cat") None offline_process)
  = Raise RequestException /\
  fst (chat_fn (H := ascii_only) (lit "cat") None null_content_process)
  = Ok ([ {| role := lit "user"; content := JString (lit "cat") |};
          {| role := lit "assistant"; content := JNull |} ], []).
Proof.
  split; [|split].
  - apply (@chat_fn_transcript ascii_only (lit "cat") None
             (start None (fun _ => Raise RequestException))).
    reflexivity.
  - etransitivity.
    + apply (@chat_fn_transcript ascii_only (lit "cat") None
               offline_process).
      discriminate.
    + vm_compute. reflexivity.
  - etransitivity.
    + apply (@chat_fn_transcript ascii_only (lit "cat") None
               null_content_process).
      discriminate.
    + vm_compute. reflexivity.
Defined.

Lemma run_frame_witness :
  DOCUMENT_CHUNKS
    (run (H := ascii_only) sample_process
       [ChatFn (lit "cat") None; ChatFn (lit "zebra") None])
  = DOCUMENT_CHUNKS sample_process.
Proof.
  apply (@run_frame ascii_only sample_process
           [ChatFn (lit "cat") None; ChatFn (lit "zebra") None]).
  repeat constructor.
Defined.
